(** * FlashCard: question generation, grading and session tracking

    A shallow embedding of the practice modes of the FlashCard repository
    (QuizMode, TestMode, ResponseMode, FlashcardMode and the string
    comparison of ListeningTest), followed by the theorems that settle the
    properties stated about them.

    Conventions of the embedding:
    - a JavaScript string is the list of its UTF-16 code units;
    - [userAnswers] (a JavaScript object used as a dictionary) is a [gmap];
    - a React component is a record of its [useState] cells, and every event
      handler is a function from the rendered state to the next one;
    - [Math.random], [crypto.randomUUID] and the outcome of
      [Array.prototype.sort] under a random comparator are read from an
      explicit [RandomSource]. *)

From Stdlib Require Import QArith Qround DecimalString DecimalNat.
From stdpp Require Import gmap list strings.

(** ** JavaScript strings *)

Abbreviation jsstring := (list N).

(** Literals: the code units of an ASCII string. *)
Definition js (s : string) : jsstring :=
  (λ a, Ascii.N_of_ascii a) <$> String.list_ascii_of_string s.
Arguments js s%_string.

(** [WhiteSpace] and [LineTerminator] code units of ECMAScript: the set
    removed by [String.prototype.trim] and matched by the regular
    expression class [\s]. *)
Definition is_whitespace (c : N) : bool :=
  ((9 <=? c) && (c <=? 13) || (c =? 32) || (c =? 160) || (c =? 5760)
   || (8192 <=? c) && (c <=? 8202) || (c =? 8232) || (c =? 8233)
   || (c =? 8239) || (c =? 8287) || (c =? 12288) || (c =? 65279))%N.

Fixpoint trimStart (s : jsstring) : jsstring :=
  match s with
  | [] => []
  | c :: s' => if is_whitespace c then trimStart s' else s
  end.

Definition trimEnd (s : jsstring) : jsstring := rev (trimStart (rev s)).

(** [str.trim()] *)
Definition trim (s : jsstring) : jsstring := trimEnd (trimStart s).

Definition SPACE : N := 32%N.

(** [str.replace(/\s+/g, ' ')]: every maximal run of whitespace becomes one
    space. [in_run] tells that the previous code unit was whitespace. *)
Fixpoint replace_ws_runs (in_run : bool) (s : jsstring) : jsstring :=
  match s with
  | [] => []
  | c :: s' =>
      if is_whitespace c
      then (if in_run then replace_ws_runs true s'
            else SPACE :: replace_ws_runs true s')
      else c :: replace_ws_runs false s'
  end.

Definition collapse_whitespace (s : jsstring) : jsstring :=
  replace_ws_runs false s.

(** [a === b] on strings *)
Definition str_eqb (a b : jsstring) : bool := bool_decide (a = b).

(** Truthiness of a string: only the empty string is falsy. *)
Definition truthy (s : jsstring) : bool :=
  match s with [] => false | _ => true end.

(** Template literal [`${n}`] for a non-negative integer. *)
Definition decimal (n : nat) : jsstring :=
  js (NilZero.string_of_uint (Nat.to_uint n)).

(** On strings of ASCII code units the built-in [toLowerCase] maps [A]-[Z]
    to [a]-[z] and leaves every other code unit alone. The definitions below
    take the built-in as a parameter; this function is its instance for the
    concrete ASCII examples. *)
Definition asciiLowerCase (s : jsstring) : jsstring :=
  (λ c, if (65 <=? c) && (c <=? 90) then c + 32 else c)%N <$> s.

(** ** types.ts *)

Module Types.

Record Card := mkCard { id : jsstring; vocab : jsstring; meaning : jsstring }.

Record Section_ := mkSection {
  section_id : jsstring;
  title : jsstring;
  description : jsstring;
  cards : list Card;
  createdAt : nat
}.

Global Instance Card_eq_dec : EqDecision Card.
Proof. solve_decision. Defined.

End Types.

Export Types (Card, mkCard, vocab, meaning, Section_, mkSection).

(** ** The grading primitive of ResponseMode.tsx and TestMode.tsx *)

Section Normalizer.
Variable toLowerCase : jsstring -> jsstring.

(** [str.toLowerCase().trim().replace(/\s+/g, ' ')] *)
Definition normalizeString (str : jsstring) : jsstring :=
  collapse_whitespace (trim (toLowerCase str)).
End Normalizer.

(** ** The random source *)

(** Everything the code reads from the environment while it builds a question
    set. [randoms] holds the successive results of [Math.random()] as
    numerators over [2^53]; [orders] holds, for each call of
    [sort(() => Math.random() - 0.5)], the arrangement the engine ends up
    with (see [reorder]); [uuids] holds the successive values of
    [crypto.randomUUID().slice(0, 8)]. A tape that runs out keeps yielding
    [0], the identity arrangement and the empty suffix. *)
Record RandomSource := mkRandomSource {
  randoms : list N;
  orders : list (list nat);
  uuids : list jsstring
}.

(** Computations that read the random source and may throw. *)
Definition Gen (A : Type) : Type := RandomSource -> option (A * RandomSource).

Definition ret {A} (a : A) : Gen A := fun rs => Some (a, rs).

Definition bind {A B} (c : Gen A) (k : A -> Gen B) : Gen B :=
  fun rs => match c rs with
            | Some (a, rs') => k a rs'
            | None => None
            end.

Definition throw {A} : Gen A := fun _ => None.

Notation "'let*' x ':=' c 'in' k" := (bind c (fun x => k))
  (at level 10, x name, c at level 100, k at level 200).

(** A result of [Math.random()]: a double in [[0, 1)], as an exact rational. *)
Definition unit_interval (k : N) : Q := Z.of_N (k mod 2 ^ 53)%N # 2 ^ 53.

(** Round-to-nearest, ties-to-even, on the significand: the non-negative
    integer [a] rounded to 53 significant bits. For a non-negative real
    [a * 2^e] with [a] an integer and [e ≥ -1074] the nearest double is
    [round53 a * 2^e] (short of overflow): scaling by a power of two is
    exact, an integer below [2^53] is its own significand, and a longer one
    loses its low [s] bits, [s = Z.log2 a - 52], to the nearest multiple of
    [2^s], the even one on a tie. *)
Definition round53 (a : Z) : Z :=
  if (a <? 2 ^ 53)%Z then a
  else
    let s := (Z.log2 a - 52)%Z in
    let m := (a / 2 ^ s)%Z in
    let rem := (a mod 2 ^ s)%Z in
    let half := (2 ^ (s - 1))%Z in
    if (rem <? half)%Z then (m * 2 ^ s)%Z
    else if (half <? rem)%Z then ((m + 1) * 2 ^ s)%Z
    else if Z.even m then (m * 2 ^ s)%Z
    else ((m + 1) * 2 ^ s)%Z.

Definition Math_random : Gen Q :=
  fun rs => Some (unit_interval (default 0%N (head (randoms rs))),
                  mkRandomSource (tail (randoms rs)) (orders rs) (uuids rs)).

Definition randomUUID8 : Gen jsstring :=
  fun rs => Some (default [] (head (uuids rs)),
                  mkRandomSource (randoms rs) (orders rs) (tail (uuids rs))).

Fixpoint insert_at {A} (k : nat) (x : A) (l : list A) : list A :=
  match k, l with
  | S k', y :: l' => y :: insert_at k' x l'
  | _, _ => x :: l
  end.

(** The arrangement chosen by a list of positions: each element is put back
    at the position the list prescribes for it. Every permutation of [l] is
    [reorder ks l] for some [ks] (lemma [reorder_complete]). *)
Fixpoint reorder {A} (ks : list nat) (l : list A) : list A :=
  match l with
  | [] => []
  | x :: l' => insert_at (default 0 (head ks)) x (reorder (tail ks) l')
  end.

(** [arr.sort(() => Math.random() - 0.5)]: with a comparator that is not
    consistent the resulting order is implementation-defined; the array keeps
    its elements. *)
Definition sort_random {A} (arr : list A) : Gen (list A) :=
  fun rs => Some (reorder (default [] (head (orders rs))) arr,
                  mkRandomSource (randoms rs) (tail (orders rs)) (uuids rs)).

(** [for (let i = start; i < start + count; i++) acc = body(i, acc)] *)
Fixpoint for_loop {S} (count i : nat) (body : nat -> S -> Gen S) (acc : S) : Gen S :=
  match count with
  | O => ret acc
  | Datatypes.S count' => let* acc' := body i acc in for_loop count' (i + 1) body acc'
  end.

(** [arr.map((x, idx) => f(x, idx))] for an effectful [f] *)
Fixpoint map_indexed {A B} (f : A -> nat -> Gen B) (idx : nat) (arr : list A) : Gen (list B) :=
  match arr with
  | [] => ret []
  | x :: arr' =>
      let* y := f x idx in
      let* ys := map_indexed f (idx + 1) arr' in
      ret (y :: ys)
  end.

(** ** Distractor sampling

    The block that QuizMode (types.ts, lines 52-60) and TestMode (lines 63-70
    and 83-90) each spell out in place; the three copies differ in the pool,
    the correct value and the literal of the placeholder. *)

(** [`${prefix} ${k}`] *)
Definition placeholder (prefix : jsstring) (k : nat) : jsstring :=
  prefix ++ js " " ++ decimal k.

(** [while (distractors.length < 3) distractors.push(`${prefix} ${distractors.length + 1}`)] *)
Fixpoint fallback (fuel : nat) (prefix : jsstring) (distractors : list jsstring) : list jsstring :=
  match fuel with
  | O => distractors
  | Datatypes.S fuel' =>
      if length distractors <? 3
      then fallback fuel' prefix (distractors ++ [placeholder prefix (length distractors + 1)])
      else distractors
  end.

(** [pool.filter(m => m !== correct).sort(() => Math.random() - 0.5).slice(0, 3)]
    followed by the fallback loop. *)
Definition sampleDistractors (prefix : jsstring) (pool : list jsstring) (correct : jsstring)
  : Gen (list jsstring) :=
  let* shuffled := sort_random (filter (λ m, m ≠ correct) pool) in
  ret (fallback 3 prefix (take 3 shuffled)).

(** [`q-${idx}-${crypto.randomUUID().slice(0, 8)}`] *)
Definition questionId (idx : nat) (uuid : jsstring) : jsstring :=
  js "q-" ++ decimal idx ++ js "-" ++ uuid.

(** ** QuizMode (second document of types.ts) *)

Module QuizMode.

Record Question := mkQuestion {
  id : jsstring;
  card : Card;
  options : list jsstring
}.

Record State := mkState {
  questions : list Question;
  userAnswers : gmap jsstring jsstring;
  isDone : bool
}.

(** The callback of [section.cards.map((card, idx) => ...)]. *)
Definition makeQuestion (allMeanings : list jsstring) (card : Card) (idx : nat)
  : Gen Question :=
  let* distractors := sampleDistractors (js "Definition") allMeanings (meaning card) in
  let* options := sort_random (distractors ++ [meaning card]) in
  let* uuid := randomUUID8 in
  ret (mkQuestion (questionId idx uuid) card options).

(** The question-generation effect. *)
Definition generate (section : Section_) : Gen (list Question) :=
  let allMeanings := meaning <$> Types.cards section in
  let* qs := map_indexed (makeQuestion allMeanings) 0 (Types.cards section) in
  sort_random qs.

Definition handleSelect (questionId option : jsstring) (s : State) : State :=
  if isDone s then s
  else mkState (questions s) (<[questionId := option]> (userAnswers s)) (isDone s).

Definition handleEndTest (s : State) : State :=
  mkState (questions s) (userAnswers s) true.

(** [userAnswers[q.id] === q.card.meaning] *)
Definition isCorrect (userAnswers : gmap jsstring jsstring) (q : Question) : bool :=
  bool_decide (userAnswers !! id q = Some (meaning (card q))).

Definition calculateScore (s : State) : nat :=
  fold_left (fun score q => if isCorrect (userAnswers s) q then score + 1 else score)
            (questions s) 0.

Inductive Event := Select (questionId option : jsstring) | EndTest.

Definition dispatch (e : Event) (s : State) : State :=
  match e with
  | Select qid opt => handleSelect qid opt s
  | EndTest => handleEndTest s
  end.

End QuizMode.

(** ** TestMode.tsx *)

Module TestMode.

Inductive QuestionType := mc_word_to_meaning | mc_meaning_to_word | response.

Global Instance QuestionType_eq_dec : EqDecision QuestionType.
Proof. solve_decision. Defined.

Record Question := mkQuestion {
  id : jsstring;
  type : QuestionType;
  card : Card;
  options : option (list jsstring);
  correctAnswer : jsstring
}.

Record State := mkState {
  questions : list Question;
  userAnswers : gmap jsstring jsstring;
  isDone : bool
}.

(** [numberOfCards + Math.ceil(numberOfCards / 4)]; the quotient of an
    integer by 4 is exact in double arithmetic. *)
Definition totalQuestions (numberOfCards : nat) : nat :=
  numberOfCards + Z.to_nat (Qceiling (inject_Z (Z.of_nat numberOfCards) / 4)).

(** The doubles denoted by the literals [0.33] and [0.66]. *)
Definition lit_0_33 : Q := 5944751508129055 # 2 ^ 54.
Definition lit_0_66 : Q := 5944751508129055 # 2 ^ 53.

(** [a < b] on finite doubles is the comparison of their values. *)
Definition Qltb (a b : Q) : bool := negb (Qle_bool b a).

(** The [if (rand < 0.33) ... else if (rand < 0.66) ... else ...] chain. *)
Definition questionType (rand : Q) : QuestionType :=
  if Qltb rand lit_0_33 then mc_word_to_meaning
  else if Qltb rand lit_0_66 then mc_meaning_to_word
  else response.

(** [Math.floor(r * len)] for a double [r ≥ 0] and an array length [len].
    Every double is an integer multiple of [2^-1074], so [r = a / 2^1074]
    with [a = Qfloor (r * 2^1074)]; the real product is
    [(a * len) / 2^1074] and the multiplication returns the double nearest
    to it, [round53 (a * len) / 2^1074], of which [Math.floor] takes the
    integer part. (A length is below [2^32], hence held exactly.) *)
Definition floor_scaled (r : Q) (len : nat) : nat :=
  Z.to_nat (round53 (Qfloor (r * inject_Z (2 ^ 1074)) * Z.of_nat len) / 2 ^ 1074).

(** One turn of the generation loop: the question pushed at iteration [i].
    Reading a property of [undefined] (a card index out of range) throws. *)
Definition generateQuestion (section : Section_) (allMeanings allWords : list jsstring)
           (i : nat) : Gen Question :=
  let* r := Math_random in
  let picked := Types.cards section !! floor_scaled r (length (Types.cards section)) in
  let* rand := Math_random in
  match picked with
  | None => throw
  | Some card =>
      match questionType rand with
      | mc_word_to_meaning =>
          let* distractors := sampleDistractors (js "Definition") allMeanings (meaning card) in
          let* options := sort_random (distractors ++ [meaning card]) in
          let* uuid := randomUUID8 in
          ret (mkQuestion (questionId i uuid) mc_word_to_meaning card (Some options)
                          (meaning card))
      | mc_meaning_to_word =>
          let* distractors := sampleDistractors (js "Word") allWords (vocab card) in
          let* options := sort_random (distractors ++ [vocab card]) in
          let* uuid := randomUUID8 in
          ret (mkQuestion (questionId i uuid) mc_meaning_to_word card (Some options)
                          (vocab card))
      | response =>
          let* uuid := randomUUID8 in
          ret (mkQuestion (questionId i uuid) response card None (vocab card))
      end
  end.

(** The question-generation effect. *)
Definition generate (section : Section_) : Gen (list Question) :=
  let allMeanings := meaning <$> Types.cards section in
  let allWords := vocab <$> Types.cards section in
  let numberOfCards := length (Types.cards section) in
  let* generatedQuestions :=
    for_loop (totalQuestions numberOfCards) 0
             (fun i generatedQuestions =>
                let* q := generateQuestion section allMeanings allWords i in
                ret (generatedQuestions ++ [q]))
             [] in
  sort_random generatedQuestions.

(** [handleSelectMC] and [handleResponseInput] have the same body. *)
Definition handleSelectMC (questionId option : jsstring) (s : State) : State :=
  if isDone s then s
  else mkState (questions s) (<[questionId := option]> (userAnswers s)) (isDone s).

Definition handleResponseInput (questionId value : jsstring) (s : State) : State :=
  if isDone s then s
  else mkState (questions s) (<[questionId := value]> (userAnswers s)) (isDone s).

Definition handleEndTest (s : State) : State :=
  mkState (questions s) (userAnswers s) true.

Inductive Event :=
| SelectMC (questionId option : jsstring)
| ResponseInput (questionId value : jsstring)
| EndTest.

Definition dispatch (e : Event) (s : State) : State :=
  match e with
  | SelectMC qid opt => handleSelectMC qid opt s
  | ResponseInput qid v => handleResponseInput qid v s
  | EndTest => handleEndTest s
  end.

Section Grading.
Variable toLowerCase : jsstring -> jsstring.

Definition isAnswerCorrect (userAnswers : gmap jsstring jsstring) (q : Question) : bool :=
  match userAnswers !! id q with
  | None => false
  | Some userAnswer =>
      if negb (truthy userAnswer) then false
      else match type q with
           | response =>
               str_eqb (normalizeString toLowerCase userAnswer)
                       (normalizeString toLowerCase (correctAnswer q))
           | _ => str_eqb userAnswer (correctAnswer q)
           end
  end.

(** The body of [questions.forEach(q => ...)] in [calculateScore]. *)
Definition scoreStep (userAnswers : gmap jsstring jsstring) (score : nat) (q : Question) : nat :=
  match userAnswers !! id q with
  | None => score
  | Some userAnswer =>
      if negb (truthy userAnswer) then score
      else match type q with
           | response =>
               if str_eqb (normalizeString toLowerCase userAnswer)
                          (normalizeString toLowerCase (correctAnswer q))
               then score + 1 else score
           | _ => if str_eqb userAnswer (correctAnswer q) then score + 1 else score
           end
  end.

Definition calculateScore (s : State) : nat :=
  fold_left (scoreStep (userAnswers s)) (questions s) 0.
End Grading.

End TestMode.

(** ** ResponseMode.tsx *)

Module ResponseMode.

Record State := mkState {
  cards : list Card;
  index : nat;
  userInput : jsstring;
  showFeedback : bool;
  isCorrect : bool;
  incorrect : list Card;
  correct : nat;
  isDone : bool
}.

(** The first render followed by the effect that shuffles the cards. *)
Definition start (section : Section_) : Gen State :=
  let* shuffled := sort_random (Types.cards section) in
  ret (mkState shuffled 0 [] false false [] 0 false).

(** [onChange] of the input field. *)
Definition setUserInput (value : jsstring) (s : State) : State :=
  mkState (cards s) (index s) value (showFeedback s) (isCorrect s)
          (incorrect s) (correct s) (isDone s).

Section Grading.
Variable toLowerCase : jsstring -> jsstring.

(** [None]: [cards[index]] is [undefined] and reading [currentCard.vocab]
    throws. *)
Definition checkAnswer (s : State) : option State :=
  match cards s !! index s with
  | None => None
  | Some currentCard =>
      let userAnswer := normalizeString toLowerCase (userInput s) in
      let correctAnswer := normalizeString toLowerCase (vocab currentCard) in
      let correct_ := str_eqb userAnswer correctAnswer in
      Some (mkState (cards s) (index s) (userInput s) true correct_
                    (if negb correct_ then incorrect s ++ [currentCard] else incorrect s)
                    (if negb correct_ then correct s else correct s + 1)
                    (isDone s))
  end.
End Grading.

(** [index < cards.length - 1] is never true for an empty array, with the
    truncated subtraction of [nat] as with [-1] in JavaScript. *)
Definition handleNext (s : State) : State :=
  if index s <? length (cards s) - 1
  then mkState (cards s) (index s + 1) [] false (isCorrect s)
               (incorrect s) (correct s) (isDone s)
  else mkState (cards s) (index s) (userInput s) (showFeedback s) (isCorrect s)
               (incorrect s) (correct s) true.

Definition restartWithIncorrect (s : State) : Gen State :=
  let* shuffled := sort_random (incorrect s) in
  ret (mkState shuffled 0 [] false (isCorrect s) [] 0 false).

(** What the user can do. The component renders nothing for an empty
    deck; the session-end screen offers the restart only when something
    was missed; the check is reachable (button or Enter key) only before
    the feedback is shown, and Next only after. *)
Inductive Event := Type_ (value : jsstring) | CheckAnswer | Next | RestartWithIncorrect.

Definition enabled (e : Event) (s : State) : bool :=
  match cards s with
  | [] => false
  | _ =>
      match e with
      | RestartWithIncorrect => isDone s && negb (bool_decide (incorrect s = []))
      | Type_ _ | CheckAnswer => negb (isDone s) && negb (showFeedback s)
      | Next => negb (isDone s) && showFeedback s
      end
  end.

Definition dispatch (toLowerCase : jsstring -> jsstring) (e : Event) (s : State) : Gen State :=
  if enabled e s then
    match e with
    | Type_ v => ret (setUserInput v s)
    | CheckAnswer => match checkAnswer toLowerCase s with
                     | Some s' => ret s'
                     | None => throw
                     end
    | Next => ret (handleNext s)
    | RestartWithIncorrect => restartWithIncorrect s
    end
  else ret s.

(** A session: the events of the user, in order. *)
Fixpoint run (toLowerCase : jsstring -> jsstring) (es : list Event) (s : State) : Gen State :=
  match es with
  | [] => ret s
  | e :: es' => let* s' := dispatch toLowerCase e s in run toLowerCase es' s'
  end.

End ResponseMode.

(** ** FlashcardMode.tsx *)

Module FlashcardMode.

Record State := mkState {
  cards : list Card;
  index : nat;
  isFlipped : bool;
  forgotten : list Card;
  remembered : nat;
  isDone : bool
}.

Definition start (section : Section_) : Gen State :=
  let* shuffled := sort_random (Types.cards section) in
  ret (mkState shuffled 0 false [] 0 false).

(** [None]: [cards[index]] is [undefined], which the component cannot
    render ([current.vocab]), so no button exists to call the handler.
    The index update, which the source delays by 150 ms with [setTimeout],
    is applied with the rest of the handler: this is the handler together
    with its timer, as a user meets it who lets the card change before the
    next click. Module [FlashcardModeTimed] keeps the two apart. *)
Definition handleResponse (isCorrect : bool) (s : State) : option State :=
  match cards s !! index s with
  | None => None
  | Some current =>
      let forgotten' := if negb isCorrect then forgotten s ++ [current] else forgotten s in
      let remembered' := if negb isCorrect then remembered s else remembered s + 1 in
      Some (if index s <? length (cards s) - 1
            then mkState (cards s) (index s + 1) false forgotten' remembered' (isDone s)
            else mkState (cards s) (index s) (isFlipped s) forgotten' remembered' true)
  end.

Definition handleBack (s : State) : State :=
  if 0 <? index s
  then mkState (cards s) (index s - 1) false (forgotten s) (remembered s) (isDone s)
  else s.

Definition restartWithForgotten (s : State) : Gen State :=
  let* shuffled := sort_random (forgotten s) in
  ret (mkState shuffled 0 false [] 0 false).

(** What the user can do: nothing on an empty deck; on the session-end
    screen only the restart, offered when something was forgotten; during
    the session the two answer buttons, and Back when [index > 0]. *)
Inductive Event := Respond (isCorrect : bool) | Back | RestartWithForgotten.

Definition enabled (e : Event) (s : State) : bool :=
  match cards s with
  | [] => false
  | _ =>
      match e with
      | RestartWithForgotten => isDone s && negb (bool_decide (forgotten s = []))
      | Respond _ => negb (isDone s)
      | Back => negb (isDone s) && (0 <? index s)
      end
  end.

Definition dispatch (e : Event) (s : State) : Gen State :=
  if enabled e s then
    match e with
    | Respond b => match handleResponse b s with
                   | Some s' => ret s'
                   | None => throw
                   end
    | Back => ret (handleBack s)
    | RestartWithForgotten => restartWithForgotten s
    end
  else ret s.

(** A session: the events of the user, in order. *)
Fixpoint run (es : list Event) (s : State) : Gen State :=
  match es with
  | [] => ret s
  | e :: es' => let* s' := dispatch e s in run es' s'
  end.

End FlashcardMode.

(** ** FlashcardMode.tsx, the timer of [handleResponse] kept apart

    [handleResponse] does not move to the next card itself, it leaves that
    to [setTimeout(() => setIndex(prev => prev + 1), 150)]. Until the timer
    fires the component shows the same card, with its buttons live. *)

Module FlashcardModeTimed.

(** The state cells, and how many timers are still to fire; all of them run
    the same callback. *)
Record State := mkState {
  view : FlashcardMode.State;
  timers : nat
}.

Definition start (section : Section_) : Gen State :=
  let* v := FlashcardMode.start section in
  ret (mkState v 0).

(** The tallies, [isFlipped] and [isDone] are set at once; the index is
    left to a timer. *)
Definition handleResponse (isCorrect : bool) (s : State) : option State :=
  let v := view s in
  match FlashcardMode.cards v !! FlashcardMode.index v with
  | None => None
  | Some current =>
      let forgotten' := if negb isCorrect then FlashcardMode.forgotten v ++ [current]
                        else FlashcardMode.forgotten v in
      let remembered' := if negb isCorrect then FlashcardMode.remembered v
                         else FlashcardMode.remembered v + 1 in
      Some (if FlashcardMode.index v <? length (FlashcardMode.cards v) - 1
            then mkState (FlashcardMode.mkState (FlashcardMode.cards v) (FlashcardMode.index v)
                            false forgotten' remembered' (FlashcardMode.isDone v))
                         (timers s + 1)
            else mkState (FlashcardMode.mkState (FlashcardMode.cards v) (FlashcardMode.index v)
                            (FlashcardMode.isFlipped v) forgotten' remembered' true)
                         (timers s))
  end.

(** The callback of a timer: [setIndex(prev => prev + 1)]. *)
Definition timeout (s : State) : State :=
  let v := view s in
  mkState (FlashcardMode.mkState (FlashcardMode.cards v) (FlashcardMode.index v + 1)
             (FlashcardMode.isFlipped v) (FlashcardMode.forgotten v)
             (FlashcardMode.remembered v) (FlashcardMode.isDone v))
          (timers s - 1).

(** The render after a state change: nothing for an empty deck, the
    session-end screen when done, else the card [cards[index]], of which it
    reads [vocab]: on [undefined] that throws. *)
Definition renders (v : FlashcardMode.State) : bool :=
  match FlashcardMode.cards v with
  | [] => true
  | _ => FlashcardMode.isDone v
         || (FlashcardMode.index v <? length (FlashcardMode.cards v))
  end.

(** What can happen: the user clicks a button that is rendered, or a timer
    that is pending fires. A click on a button that is not rendered and
    [TimerFires] with no timer pending are no events: the state stays. *)
Inductive Event := User (e : FlashcardMode.Event) | TimerFires.

Definition handle (e : Event) (s : State) : Gen State :=
  match e with
  | User e' =>
      if FlashcardMode.enabled e' (view s) then
        match e' with
        | FlashcardMode.Respond b =>
            match handleResponse b s with
            | Some s' => ret s'
            | None => throw
            end
        | FlashcardMode.Back => ret (mkState (FlashcardMode.handleBack (view s)) (timers s))
        | FlashcardMode.RestartWithForgotten =>
            let* v := FlashcardMode.restartWithForgotten (view s) in
            ret (mkState v (timers s))
        end
      else ret s
  | TimerFires => if 0 <? timers s then ret (timeout s) else ret s
  end.

Definition dispatch (e : Event) (s : State) : Gen State :=
  let* s' := handle e s in
  if renders (view s') then ret s' else throw.

Fixpoint run (es : list Event) (s : State) : Gen State :=
  match es with
  | [] => ret s
  | e :: es' => let* s' := dispatch e s in run es' s'
  end.

End FlashcardModeTimed.

(** ** ListeningTest.tsx *)

Module ListeningTest.

(** [string | string[]] *)
Inductive Answer := AString (s : jsstring) | AStrings (l : list jsstring).

Definition falsy (a : Answer) : bool :=
  match a with
  | AString s => negb (truthy s)
  | AStrings _ => false
  end.

Definition handleAnswerChange (questionId : jsstring) (answer : Answer)
           (userAnswers : gmap jsstring Answer) : gmap jsstring Answer :=
  <[questionId := answer]> userAnswers.

Section Grading.
Variable toLowerCase : jsstring -> jsstring.

(** The comparison of the last [return]:
    [userAnswer.toLowerCase().trim() === correctAnswer.toLowerCase().trim()] *)
Definition sameText (userAnswer correctAnswer : jsstring) : bool :=
  str_eqb (trim (toLowerCase userAnswer)) (trim (toLowerCase correctAnswer)).

(** [questionId] is the property key, after the conversion of a numeric
    id to a string. *)
Definition checkAnswer (userAnswers : gmap jsstring Answer) (questionId : jsstring)
           (correctAnswer : Answer) : bool :=
  match userAnswers !! questionId with
  | None => false
  | Some userAnswer =>
      if falsy userAnswer then false
      else match correctAnswer with
           | AStrings correct =>
               match userAnswer with
               | AStrings user =>
                   (length correct =? length user)
                   && forallb (fun ans => bool_decide (ans ∈ user)) correct
               | AString _ => false
               end
           | AString correct =>
               match userAnswer with
               | AString user => sameText user correct
               | AStrings _ => false
               end
           end
  end.
End Grading.

End ListeningTest.

(** ** SectionEditor.tsx *)

Module SectionEditor.

Record State := mkState {
  section : option Section_;
  title : jsstring;
  desc : jsstring;
  cards : list Card
}.

(** The three [useState] initialisers: [section?.title || ''],
    [section?.description || ''], [section?.cards || []]. *)
Definition init (section : option Section_) : State :=
  match section with
  | Some sec => mkState section (Types.title sec) (Types.description sec) (Types.cards sec)
  | None => mkState section [] [] []
  end.

(** [uuid] is the value of [crypto.randomUUID()]. *)
Definition addCard (uuid : jsstring) (s : State) : State :=
  mkState (section s) (title s) (desc s) (cards s ++ [mkCard uuid [] []]).




Definition removeCard (id : jsstring) (s : State) : State :=
  mkState (section s) (title s) (desc s) (filter (λ c, Types.id c ≠ id) (cards s)).

(** [c.vocab.trim() && c.meaning.trim()] as a condition *)
Definition complete (c : Card) : bool :=
  truthy (trim (vocab c)) && truthy (trim (meaning c)).

(** What [handleSave] does: one of the two alerts, or the call of [onSave]. *)
Inductive Outcome :=
| AlertNoTitle
| AlertNoCard
| OnSave (saved : Section_).

(** [uuid] is the value [crypto.randomUUID()] would return and [now] the
    value of [Date.now()]; [a || b] takes [b] when [a] is [undefined], the
    empty string or 0. *)
Definition handleSave (uuid : jsstring) (now : nat) (s : State) : Outcome :=
  if negb (truthy (trim (title s))) then AlertNoTitle
  else
    let validCards := filter (λ c, complete c = true) (cards s) in
    if length validCards =? 0 then AlertNoCard
    else OnSave (mkSection
                   (match section s with
                    | Some sec => if truthy (Types.section_id sec) then Types.section_id sec else uuid
                    | None => uuid
                    end)
                   (title s) (desc s) validCards
                   (match section s with
                    | Some sec => if Types.createdAt sec =? 0 then now else Types.createdAt sec
                    | None => now
                    end)).

End SectionEditor.

(** ** App.tsx (src/unnamed/part_000) *)

Module App.

(** [ViewMode], with the modes the component sets. *)
Inductive ViewMode := dashboard | edit | flashcard | quiz | response | test | listening.

Record State := mkState {
  sections : list Section_;
  selectedIds : gset jsstring;
  activeId : option jsstring;
  deleteId : option jsstring;
  mode : ViewMode;
  dragItem : option nat
}.

(** [sections.find(s => s.id === activeId)] *)
Definition activeSection (s : State) : option Section_ :=
  match activeId s with
  | Some id => List.find (λ sec, bool_decide (Types.section_id sec = id)) (sections s)
  | None => None
  end.

Definition handleSave (sec : Section_) (s : State) : State :=
  let sections' :=
    match List.find (λ p, bool_decide (Types.section_id p = Types.section_id sec)) (sections s) with
    | Some _ =>
        (λ p, if bool_decide (Types.section_id p = Types.section_id sec) then sec else p)
          <$> sections s
    | None => sections s ++ [sec]
    end in
  mkState sections' (selectedIds s) None (deleteId s) dashboard (dragItem s).

Definition handleDeleteClick (id : jsstring) (s : State) : State :=
  mkState (sections s) (selectedIds s) (activeId s) (Some id) (mode s) (dragItem s).

Definition BULK : jsstring := js "BULK".

(** [if (deleteId)] fails for [null] and for the empty string. *)
Definition confirmDelete (s : State) : State :=
  match deleteId s with
  | Some id =>
      if truthy id then
        if bool_decide (id = BULK)
        then mkState (filter (λ sec, Types.section_id sec ∉ selectedIds s) (sections s))
                     ∅ (activeId s) None (mode s) (dragItem s)
        else mkState (filter (λ sec, Types.section_id sec ≠ id) (sections s))
                     (selectedIds s) (activeId s) None (mode s) (dragItem s)
      else s
  | None => s
  end.

Definition handleEdit (id : jsstring) (s : State) : State :=
  mkState (sections s) (selectedIds s) (Some id) (deleteId s) edit (dragItem s).

Definition toggleSelection (id : jsstring) (s : State) : State :=
  let newSelected :=
    if bool_decide (id ∈ selectedIds s) then selectedIds s ∖ {[id]} else selectedIds s ∪ {[id]} in
  mkState (sections s) newSelected (activeId s) (deleteId s) (mode s) (dragItem s).

Definition selectAll (s : State) : State :=
  let selected :=
    if size (selectedIds s) =? length (sections s) then ∅
    else list_to_set (Types.section_id <$> sections s) in
  mkState (sections s) selected (activeId s) (deleteId s) (mode s) (dragItem s).

Definition handleDragStart (position : nat) (s : State) : State :=
  mkState (sections s) (selectedIds s) (activeId s) (deleteId s) (mode s) (Some position).

(** [splice(from, 1)] then [splice(position, 0, item)]. [None]: the slot
    [newSections[dragItem.current]] is [undefined], which the typed list
    cannot hold; the positions come from the rendered list, where this
    does not happen. *)
Definition handleDragEnter (position : nat) (s : State) : option State :=
  match dragItem s with
  | None => Some s
  | Some from =>
      if bool_decide (from = position) then Some s
      else
        match sections s !! from with
        | None => None
        | Some draggedItemContent =>
            let removed := delete from (sections s) in
            Some (mkState (take position removed ++ draggedItemContent :: drop position removed)
                          (selectedIds s) (activeId s) (deleteId s) (mode s) (Some position))
        end
  end.

Definition handleDragEnd (s : State) : State :=
  mkState (sections s) (selectedIds s) (activeId s) (deleteId s) (mode s) None.

Section Exporting.
Variable toLowerCase : jsstring -> jsstring.

(** [`${s.title.toLowerCase().replace(/\s/g, '_')}.json`] *)
Definition exportFilename (sec : Section_) : jsstring :=
  ((λ c, if is_whitespace c then 95%N else c) <$> toLowerCase (Types.title sec)) ++ js ".json".
End Exporting.

End App.

(** * Statements of the specification *)

(** The sampler as the specification words it: of the shuffled, filtered
    pool keep up to 3 values, then append the placeholders numbered
    [1, 2, ...] until there are 3. *)
Definition sample_as_specified (prefix : jsstring) (shuffled : list jsstring) : list jsstring :=
  let kept := take 3 shuffled in
  kept ++ (placeholder prefix <$> seq 1 (3 - length kept)).

(** The multiple-choice questions that a generation can produce, each with
    the placeholder literal, the pool and the correct value its options
    were built from: the questions of quiz mode and the two multiple-choice
    shapes of the mixed test. *)
Inductive generated_mc : jsstring → list jsstring → jsstring → list jsstring → Prop :=
| generated_quiz section rs qs rs' q :
    QuizMode.generate section rs = Some (qs, rs') →
    q ∈ qs →
    generated_mc (js "Definition") (meaning <$> Types.cards section)
                 (meaning (QuizMode.card q)) (QuizMode.options q)
| generated_word_to_meaning section rs qs rs' q opts :
    TestMode.generate section rs = Some (qs, rs') →
    q ∈ qs →
    TestMode.type q = TestMode.mc_word_to_meaning →
    TestMode.options q = Some opts →
    generated_mc (js "Definition") (meaning <$> Types.cards section)
                 (TestMode.correctAnswer q) opts
| generated_meaning_to_word section rs qs rs' q opts :
    TestMode.generate section rs = Some (qs, rs') →
    q ∈ qs →
    TestMode.type q = TestMode.mc_meaning_to_word →
    TestMode.options q = Some opts →
    generated_mc (js "Word") (vocab <$> Types.cards section)
                 (TestMode.correctAnswer q) opts.

(** The option invariant as the specification states it: four options, the
    correct answer exactly once, the other entries pairwise distinct. *)
Definition option_invariant (correct : jsstring) (options : list jsstring) : Prop :=
  length options = 4
  ∧ length (filter (λ o, o = correct) options) = 1
  ∧ NoDup (filter (λ o, o ≠ correct) options).

Global Instance option_invariant_dec correct options : Decision (option_invariant correct options).
Proof. unfold option_invariant. apply _. Defined.

(** How the code builds the options of one question. *)
Definition built_options (prefix : jsstring) (pool : list jsstring) (correct : jsstring)
           (options : list jsstring) : Prop :=
  ∃ shuffled, shuffled ≡ₚ filter (λ m, m ≠ correct) pool
              ∧ options ≡ₚ fallback 3 prefix (take 3 shuffled) ++ [correct].

(** What the loop of TestMode pushes for each shape. *)
Definition TestMode_question_built (section : Section_) (q : TestMode.Question) : Prop :=
  TestMode.card q ∈ Types.cards section
  ∧ match TestMode.type q with
    | TestMode.mc_word_to_meaning =>
        TestMode.correctAnswer q = meaning (TestMode.card q)
        ∧ ∃ opts, TestMode.options q = Some opts
                  ∧ built_options (js "Definition") (meaning <$> Types.cards section)
                                  (meaning (TestMode.card q)) opts
    | TestMode.mc_meaning_to_word =>
        TestMode.correctAnswer q = vocab (TestMode.card q)
        ∧ ∃ opts, TestMode.options q = Some opts
                  ∧ built_options (js "Word") (vocab <$> Types.cards section)
                                  (vocab (TestMode.card q)) opts
    | TestMode.response =>
        TestMode.correctAnswer q = vocab (TestMode.card q) ∧ TestMode.options q = None
    end.

(** The roll of the shape as the specification states it: the draw falls in
    one of three intervals of length 1/3. *)
Definition questionType_as_specified (rand : Q) : TestMode.QuestionType :=
  if TestMode.Qltb rand (1 # 3) then TestMode.mc_word_to_meaning
  else if TestMode.Qltb rand (2 # 3) then TestMode.mc_meaning_to_word
  else TestMode.response.

(** The free-text rule as the specification states it:
    [gradeFreeText(userInput, correctAnswer)] is true iff the two normal
    forms are equal. *)
Definition gradeFreeText (toLowerCase : jsstring → jsstring)
           (userInput correctAnswer : jsstring) : bool :=
  str_eqb (normalizeString toLowerCase userInput) (normalizeString toLowerCase correctAnswer).

(** A session of quiz mode and of the mixed test: the events of the user,
    in order. *)
Definition QuizMode_run (es : list QuizMode.Event) (s : QuizMode.State) : QuizMode.State :=
  foldl (λ s e, QuizMode.dispatch e s) s es.

Definition TestMode_run (es : list TestMode.Event) (s : TestMode.State) : TestMode.State :=
  foldl (λ s e, TestMode.dispatch e s) s es.

(** The tallies of a flashcard session agree with its progress: one entry
    per card passed, and the session ends on the last card. *)
Definition flashcard_tally (s : FlashcardMode.State) : Prop :=
  FlashcardMode.remembered s + length (FlashcardMode.forgotten s)
  = FlashcardMode.index s + (if FlashcardMode.isDone s then 1 else 0)
  ∧ (FlashcardMode.isDone s = true
     → FlashcardMode.index s + 1 = length (FlashcardMode.cards s)).

(** The same for response mode, where a card is tallied when it is checked. *)
Definition response_tally (s : ResponseMode.State) : Prop :=
  ResponseMode.correct s + length (ResponseMode.incorrect s)
  = ResponseMode.index s + (if ResponseMode.showFeedback s then 1 else 0)
  ∧ (ResponseMode.index s < length (ResponseMode.cards s) ∨ ResponseMode.cards s = [])
  ∧ (ResponseMode.isDone s = true
     → ResponseMode.showFeedback s = true
       ∧ ResponseMode.index s + 1 = length (ResponseMode.cards s)).

(** A string whose whitespace is made of single spaces only: every
    whitespace code unit is U+0020 and is not preceded by another one.
    [prev] tells that the code unit before the string is whitespace. *)
Fixpoint single_spaced (prev : bool) (s : jsstring) : Prop :=
  match s with
  | [] => True
  | c :: s' =>
      if is_whitespace c then c = SPACE ∧ prev = false ∧ single_spaced true s'
      else single_spaced false s'
  end.

(** No whitespace at either end. *)
Definition trimmed (s : jsstring) : Prop :=
  (∀ c, head s = Some c → is_whitespace c = false)
  ∧ (∀ c, last s = Some c → is_whitespace c = false).

(** The user picks, for every question in turn, the correct answer. *)
Definition QuizMode_answer_all (qs : list QuizMode.Question) : list QuizMode.Event :=
  (λ q, QuizMode.Select (QuizMode.id q) (meaning (QuizMode.card q))) <$> qs.

Definition TestMode_answer_all (qs : list TestMode.Question) : list TestMode.Event :=
  (λ q, match TestMode.type q with
        | TestMode.response => TestMode.ResponseInput (TestMode.id q) (TestMode.correctAnswer q)
        | _ => TestMode.SelectMC (TestMode.id q) (TestMode.correctAnswer q)
        end) <$> qs.

(** The deck of a flashcard session is in order: the current index points
    into the deck (unless the deck is empty), the deck holds cards of the
    section only, and the cards to review come from the deck. *)
Definition flashcard_deck_ok (section : Section_) (s : FlashcardMode.State) : Prop :=
  (FlashcardMode.index s < length (FlashcardMode.cards s) ∨ FlashcardMode.cards s = [])
  ∧ FlashcardMode.cards s ⊆ Types.cards section
  ∧ FlashcardMode.forgotten s ⊆ FlashcardMode.cards s.

(** The session of a patient user: after each click the timer it may have
    set fires before the next click. *)
Fixpoint patient (es : list FlashcardMode.Event) : list FlashcardModeTimed.Event :=
  match es with
  | [] => []
  | e :: es' => FlashcardModeTimed.User e :: FlashcardModeTimed.TimerFires :: patient es'
  end.

Definition response_deck_ok (section : Section_) (s : ResponseMode.State) : Prop :=
  (ResponseMode.index s < length (ResponseMode.cards s) ∨ ResponseMode.cards s = [])
  ∧ ResponseMode.cards s ⊆ Types.cards section
  ∧ ResponseMode.incorrect s ⊆ ResponseMode.cards s.

(** The events the rendered quiz offers: the option buttons of each question
    call [handleSelect(q.id, opt)] for the options of that question. *)
Definition QuizMode_offered (qs : list QuizMode.Question) (e : QuizMode.Event) : Prop :=
  match e with
  | QuizMode.Select questionId option =>
      ∃ q, q ∈ qs ∧ questionId = QuizMode.id q ∧ option ∈ QuizMode.options q
  | QuizMode.EndTest => True
  end.

(** The events the rendered mixed test offers: the option buttons of a
    multiple-choice question and the input field of a free-text one. *)
Definition TestMode_offered (qs : list TestMode.Question) (e : TestMode.Event) : Prop :=
  match e with
  | TestMode.SelectMC questionId option =>
      ∃ q opts, q ∈ qs ∧ questionId = TestMode.id q
                ∧ TestMode.options q = Some opts ∧ option ∈ opts
  | TestMode.ResponseInput questionId _ =>
      ∃ q, q ∈ qs ∧ questionId = TestMode.id q ∧ TestMode.type q = TestMode.response
  | TestMode.EndTest => True
  end.

(** ** Concrete sections and sources used in the examples *)

Definition card_of (v m : string) : Card := mkCard (js "id") (js v) (js m).

Definition section_of (cs : list Card) : Section_ := mkSection (js "s") (js "t") [] cs 0.

(** Four cards, three of which share a meaning. *)
Definition section_shared_meaning : Section_ :=
  section_of [card_of "a" "x"; card_of "b" "y"; card_of "c" "y"; card_of "d" "y"].

(** One card whose meaning reads like a placeholder. *)
Definition section_placeholder_meaning : Section_ :=
  section_of [card_of "a" "Definition 1"].

(** Four cards with four meanings. *)
Definition section_four : Section_ :=
  section_of [card_of "a" "x"; card_of "b" "y"; card_of "c" "z"; card_of "d" "w"].

(** Two cards, one of whose meanings reads like the first placeholder. *)
Definition section_placeholder_among : Section_ :=
  section_of [card_of "a" "Definition 1"; card_of "b" "y"].

Definition section_two : Section_ := section_of [card_of "a" "x"; card_of "b" "y"].

(** The source whose tapes are empty: every draw is 0, every sort leaves
    the array as it is. *)
Definition quiet : RandomSource := mkRandomSource [] [] [].

(** One card whose vocabulary is blank (an imported section; the editor
    would not save it). *)
Definition section_blank_vocab : Section_ := section_of [card_of "" "m"].

(** A source whose shape rolls are the largest draw: every question of the
    mixed test is a free-text one. *)
Definition all_response : RandomSource :=
  mkRandomSource [0; 9007199254740991; 0; 9007199254740991]%N [] [js "aaaaaaaa"; js "bbbbbbbb"].

(** * Properties *)

(** ** The model of the shuffle *)

Lemma insert_at_perm {A} (k : nat) (x : A) (l : list A) : insert_at k x l ≡ₚ x :: l.
Proof.
  revert k; induction l as [|y l IH]; intros [|k]; simpl; try reflexivity.
  rewrite IH. apply perm_swap.
Qed.

Lemma insert_at_app {A} (x : A) (l1 l2 : list A) :
  insert_at (length l1) x (l1 ++ l2) = l1 ++ x :: l2.
Proof.
  induction l1 as [|y l1 IH]; simpl.
  - by destruct l2.
  - by rewrite IH.
Qed.

Lemma reorder_perm {A} (ks : list nat) (l : list A) : reorder ks l ≡ₚ l.
Proof.
  revert ks; induction l as [|x l IH]; intros ks; simpl; [done|].
  by rewrite insert_at_perm, IH.
Qed.

Lemma reorder_length {A} (ks : list nat) (l : list A) : length (reorder ks l) = length l.
Proof. by rewrite reorder_perm. Qed.

(** The model leaves out no outcome of the shuffle. *)
Lemma reorder_complete {A} (l l' : list A) : l ≡ₚ l' → ∃ ks, reorder ks l = l'.
Proof.
  revert l'; induction l as [|x l IH]; intros l' Hp.
  - apply Permutation_nil_l in Hp as <-. by exists [].
  - assert (x ∈ l') as Hx by (rewrite <- Hp; left).
    apply list_elem_of_split in Hx as (l1 & l2 & ->).
    apply Permutation_cons_app_inv in Hp.
    destruct (IH _ Hp) as [ks Hks].
    exists (length l1 :: ks); simpl. by rewrite Hks, insert_at_app.
Qed.

Lemma sort_random_spec {A} (arr : list A) (rs : RandomSource) :
  ∃ arr' rs', sort_random arr rs = Some (arr', rs') ∧ arr' ≡ₚ arr.
Proof. eexists _, _; split; [reflexivity|apply reorder_perm]. Qed.

Lemma sort_random_complete {A} (arr arr' : list A) :
  arr ≡ₚ arr' → ∃ rs rs', sort_random arr rs = Some (arr', rs').
Proof.
  intros [ks <-]%reorder_complete.
  by exists (mkRandomSource [] [ks] []), (mkRandomSource [] [] []).
Qed.

(** ** The monad *)

Lemma bind_Some {A B} (c : Gen A) (k : A → Gen B) rs b rs'' :
  bind c k rs = Some (b, rs'') ↔ ∃ a rs', c rs = Some (a, rs') ∧ k a rs' = Some (b, rs'').
Proof.
  unfold bind; split.
  - destruct (c rs) as [[a rs']|]; [eauto|done].
  - by intros (a & rs' & -> & ?).
Qed.

Lemma ret_Some {A} (a b : A) rs rs' : ret a rs = Some (b, rs') ↔ a = b ∧ rs = rs'.
Proof. unfold ret; split; [intros [= -> ->]; by split|by intros [-> ->]]. Qed.

Lemma sort_random_Some {A} (arr arr' : list A) rs rs' :
  sort_random arr rs = Some (arr', rs') → arr' ≡ₚ arr.
Proof. intros [= <- _]. apply reorder_perm. Qed.

(** ** The fallback loop *)

Lemma fallback_unfold (fuel : nat) (prefix : jsstring) (d : list jsstring) :
  fallback fuel prefix d
  = d ++ (placeholder prefix <$> seq (length d + 1) (fuel `min` (3 - length d))).
Proof.
  revert d; induction fuel as [|fuel IH]; intros d; simpl.
  - by rewrite app_nil_r.
  - destruct (Nat.ltb_spec (length d) 3) as [Hlt|Hge].
    + rewrite IH, length_app; simpl.
      replace (3 - length d) with (S (3 - (length d + 1))) by lia.
      rewrite <- app_assoc; simpl.
      by replace (S (length d + 1)) with (length d + 1 + 1) by lia.
    + replace (3 - length d) with 0 by lia. by rewrite app_nil_r.
Qed.

(** Three turns are all the loop ever takes: more fuel changes nothing, and
    the loop condition is false on exit. *)
Lemma fallback_terminates (fuel : nat) (prefix : jsstring) (d : list jsstring) :
  3 ≤ fuel →
  fallback fuel prefix d = fallback 3 prefix d ∧ (length (fallback 3 prefix d) <? 3) = false.
Proof.
  intros Hfuel. rewrite !fallback_unfold. split.
  - by replace (fuel `min` (3 - length d)) with (3 `min` (3 - length d)) by lia.
  - apply Nat.ltb_ge. rewrite length_app, length_fmap, length_seq. lia.
Qed.

Lemma sampleDistractors_Some prefix pool correct rs ds rs' :
  sampleDistractors prefix pool correct rs = Some (ds, rs') →
  ∃ shuffled, shuffled ≡ₚ filter (λ m, m ≠ correct) pool
              ∧ ds = fallback 3 prefix (take 3 shuffled).
Proof.
  unfold sampleDistractors. intros (shuffled & rs1 & Hs & Hr)%bind_Some.
  apply ret_Some in Hr as [<- _]. apply sort_random_Some in Hs. eauto.
Qed.

(** ** Distractor sampling *)

(** C4, as the code has it: the sampler filters the pool to the values that
    differ from the correct one, keeps the first (up to) 3 of them in a
    shuffled order, and pads with the placeholders numbered by their
    position in the result, [length kept + 1] up to [3]; the result has
    exactly 3 elements and every value kept from the pool is a pool value
    different from the correct one. *)
Theorem sampleDistractors_shape (prefix : jsstring) (pool : list jsstring)
        (correct : jsstring) (rs : RandomSource) :
  ∃ shuffled rs',
    shuffled ≡ₚ filter (λ m, m ≠ correct) pool
    ∧ sampleDistractors prefix pool correct rs
      = Some (take 3 shuffled
                ++ (placeholder prefix
                      <$> seq (length (take 3 shuffled) + 1) (3 - length (take 3 shuffled))),
              rs')
    ∧ length (take 3 shuffled
                ++ (placeholder prefix
                      <$> seq (length (take 3 shuffled) + 1) (3 - length (take 3 shuffled))))
      = 3
    ∧ ∀ m, m ∈ take 3 shuffled → m ∈ pool ∧ m ≠ correct.
Proof.
  destruct (sort_random_spec (filter (λ m, m ≠ correct) pool) rs)
    as (shuffled & rs' & Hrun & Hperm).
  exists shuffled, rs'. split; [done|]. split; [|split].
  - unfold sampleDistractors, bind. rewrite Hrun. unfold ret.
    rewrite fallback_unfold.
    by replace (3 `min` (3 - length (take 3 shuffled)))
         with (3 - length (take 3 shuffled)) by lia.
  - rewrite length_app, length_fmap, length_seq, length_take. lia.
  - intros m Hm%subseteq_take. rewrite Hperm in Hm.
    by apply list_elem_of_filter in Hm as [? ?].
Qed.

(** C4, as stated, fails: with one value left in the pool the placeholders
    are numbered 2 and 3, not 1 and 2. *)
Lemma sampleDistractors_numbering_counterexample :
  let rs := mkRandomSource [] [] [] in
  sampleDistractors (js "Definition") [js "x"; js "y"] (js "x") rs
  = Some ([js "y"; js "Definition 2"; js "Definition 3"], rs)
  ∧ sample_as_specified (js "Definition") (filter (λ m, m ≠ js "x") [js "x"; js "y"])
    = [js "y"; js "Definition 1"; js "Definition 2"]
  ∧ [js "y"; js "Definition 2"; js "Definition 3"]
    ≠ [js "y"; js "Definition 1"; js "Definition 2"].
Proof. split; [|split]; [by vm_compute..|]. by intros [=]. Qed.

(** ** Question generation *)

Lemma map_indexed_Some {A B} (f : A → nat → Gen B) (P : A → B → Prop) :
  (∀ x i rs y rs', f x i rs = Some (y, rs') → P x y) →
  ∀ arr idx rs ys rs', map_indexed f idx arr rs = Some (ys, rs') → Forall2 P arr ys.
Proof.
  intros Hf arr; induction arr as [|x arr IH]; intros idx rs ys rs'; simpl.
  - intros [<- _]%ret_Some. constructor.
  - intros (y & rs1 & Hy & (ys' & rs2 & Hys & [<- _]%ret_Some)%bind_Some)%bind_Some.
    constructor; eauto.
Qed.

Lemma for_loop_invariant {S} (I : S → Prop) (body : nat → S → Gen S) :
  (∀ i acc rs acc' rs', I acc → body i acc rs = Some (acc', rs') → I acc') →
  ∀ count i acc rs res rs',
    I acc → for_loop count i body acc rs = Some (res, rs') → I res.
Proof.
  intros Hbody count; induction count as [|count IH]; intros i acc rs res rs' Hacc; simpl.
  - by intros [<- _]%ret_Some.
  - intros (acc' & rs1 & Hb & Hrest)%bind_Some. eauto.
Qed.

Lemma for_loop_total {A} (body : nat → list A → Gen (list A)) :
  (∀ i acc rs, ∃ acc' rs', body i acc rs = Some (acc', rs')
                           ∧ length acc' = Datatypes.S (length acc)) →
  ∀ count i acc rs,
    ∃ res rs', for_loop count i body acc rs = Some (res, rs')
               ∧ length res = length acc + count.
Proof.
  intros Hbody count; induction count as [|count IH]; intros i acc rs; simpl.
  - exists acc, rs. split; [done|lia].
  - destruct (Hbody i acc rs) as (acc' & rs1 & Hb & Hlen).
    destruct (IH (i + 1) acc' rs1) as (res & rs' & Hrest & Hres).
    exists res, rs'. split; [|lia]. unfold bind. by rewrite Hb.
Qed.

Lemma QuizMode_makeQuestion_Some allMeanings card idx rs q rs' :
  QuizMode.makeQuestion allMeanings card idx rs = Some (q, rs') →
  QuizMode.card q = card
  ∧ built_options (js "Definition") allMeanings (meaning card) (QuizMode.options q).
Proof.
  unfold QuizMode.makeQuestion.
  intros (ds & rs1 & Hds & (opts & rs2 & Hopts & (uuid & rs3 & _ & [<- _]%ret_Some)
    %bind_Some)%bind_Some)%bind_Some.
  split; [done|]; simpl.
  apply sampleDistractors_Some in Hds as (shuffled & Hperm & ->).
  apply sort_random_Some in Hopts. by exists shuffled.
Qed.

Lemma QuizMode_generate_Some section rs qs rs' q :
  QuizMode.generate section rs = Some (qs, rs') →
  q ∈ qs →
  QuizMode.card q ∈ Types.cards section
  ∧ built_options (js "Definition") (meaning <$> Types.cards section)
                  (meaning (QuizMode.card q)) (QuizMode.options q).
Proof.
  unfold QuizMode.generate. intros (qs0 & rs1 & Hmap & Hsort)%bind_Some Hq.
  apply sort_random_Some in Hsort. rewrite Hsort in Hq.
  eapply map_indexed_Some in Hmap; [|apply QuizMode_makeQuestion_Some].
  apply list_elem_of_lookup in Hq as [n Hn].
  destruct (Forall2_lookup_r _ _ _ _ _ Hmap Hn) as (c & Hc & <- & Hb).
  split; [|done]. by eapply list_elem_of_lookup_2.
Qed.

Lemma TestMode_generateQuestion_Some section i rs q rs' :
  TestMode.generateQuestion section (meaning <$> Types.cards section)
                            (vocab <$> Types.cards section) i rs = Some (q, rs') →
  TestMode_question_built section q.
Proof.
  unfold TestMode.generateQuestion.
  intros (r & rs1 & _ & (rand & rs2 & _ & Hq)%bind_Some)%bind_Some.
  destruct (Types.cards section !! _) as [card|] eqn:Hcard; [|done].
  apply list_elem_of_lookup_2 in Hcard.
  destruct (TestMode.questionType rand).
  - apply bind_Some in Hq as (ds & rs3 & Hds & (opts & rs4 & Hopts
      & (uuid & rs5 & _ & [<- _]%ret_Some)%bind_Some)%bind_Some).
    split; [done|]; simpl. split; [done|]. exists opts; split; [done|].
    apply sampleDistractors_Some in Hds as (shuffled & Hperm & ->).
    apply sort_random_Some in Hopts. by exists shuffled.
  - apply bind_Some in Hq as (ds & rs3 & Hds & (opts & rs4 & Hopts
      & (uuid & rs5 & _ & [<- _]%ret_Some)%bind_Some)%bind_Some).
    split; [done|]; simpl. split; [done|]. exists opts; split; [done|].
    apply sampleDistractors_Some in Hds as (shuffled & Hperm & ->).
    apply sort_random_Some in Hopts. by exists shuffled.
  - apply bind_Some in Hq as (uuid & rs3 & _ & [<- _]%ret_Some). by repeat split.
Qed.

Lemma TestMode_generate_Some section rs qs rs' :
  TestMode.generate section rs = Some (qs, rs') →
  Forall (TestMode_question_built section) qs.
Proof.
  unfold TestMode.generate. intros (qs0 & rs1 & Hloop & Hsort)%bind_Some.
  apply sort_random_Some in Hsort. rewrite Hsort.
  eapply (for_loop_invariant (Forall (TestMode_question_built section))) in Hloop; [done| |done].
  intros i acc rs2 acc' rs3 Hacc (q & rs4 & Hq & [<- _]%ret_Some)%bind_Some.
  apply Forall_app; split; [done|]. constructor; [|done].
  by eapply TestMode_generateQuestion_Some.
Qed.

(** A draw of [Math.random()] lies in [[0, 1)]. *)
Lemma unit_interval_range (k : N) : (0 <= unit_interval k)%Q ∧ (unit_interval k < 1)%Q.
Proof.
  unfold unit_interval, Qle, Qlt; simpl.
  pose proof (N.mod_upper_bound k (2 ^ 53)%N ltac:(done)) as Hub.
  apply N2Z.inj_lt in Hub. change (Z.of_N (2 ^ 53)) with (Z.pos (2 ^ 53)) in Hub.
  pose proof (N2Z.is_nonneg (k `mod` 2 ^ 53)) as Hnn.
  generalize dependent (Z.of_N (k `mod` 2 ^ 53)). generalize (Z.pos (2 ^ 53)).
  intros; lia.
Qed.

(** The rounded integer stays below a bound [L] that is itself a double,
    [g] being the gap between [L] and the double before it. *)
Lemma round53_below (p L g t : Z) :
  (0 ≤ t)%Z → L = (g * 2 ^ 53)%Z → (2 ^ t | L)%Z → (L < 2 ^ (t + 53))%Z → (0 < g)%Z →
  (0 ≤ p ≤ L - g)%Z →
  (round53 p < L)%Z.
Proof.
  intros Ht HL [z Hz] Hlt Hg Hp. unfold round53.
  destruct (Z.ltb_spec p (2 ^ 53)) as [Hsmall|Hbig]; [lia|].
  assert (0 < 2 ^ 53)%Z as HK by (by apply Z.pow_pos_nonneg).
  assert (0 < p)%Z as Hpos by lia.
  destruct (Z.log2_spec p Hpos) as [Hlo Hhi].
  assert (53 ≤ Z.log2 p)%Z as Hl53 by (by apply Z.log2_le_pow2).
  assert (Z.log2 p < t + 53)%Z as Hlt53 by (apply Z.log2_lt_pow2; [done|lia]).
  set (s := (Z.log2 p - 52)%Z) in *.
  assert (1 ≤ s ≤ t)%Z as Hs by lia.
  assert (2 ^ s = 2 * 2 ^ (s - 1))%Z as HP.
  { replace s with (Z.succ (s - 1)) at 1 by lia. rewrite Z.pow_succ_r by lia. done. }
  assert (0 < 2 ^ (s - 1))%Z as Hhalf by (apply Z.pow_pos_nonneg; lia).
  assert (2 ^ Z.log2 p = 2 ^ (s - 1) * 2 ^ 53)%Z as Htop.
  { replace (Z.log2 p) with ((s - 1) + 53)%Z by lia. rewrite Z.pow_add_r by lia. done. }
  assert (2 ^ t = 2 ^ (t - s) * 2 ^ s)%Z as Hts.
  { replace t with ((t - s) + s)%Z at 1 by lia. rewrite Z.pow_add_r by lia. done. }
  pose proof (Z.div_mod p (2 ^ s) ltac:(lia)) as Hdm.
  pose proof (Z.mod_pos_bound p (2 ^ s) ltac:(lia)) as Hmod.
  generalize dependent (p / 2 ^ s)%Z. generalize dependent (p mod 2 ^ s)%Z.
  intros rem Hrem m Hdm.
  set (c := (z * 2 ^ (t - s))%Z).
  assert (L = c * 2 ^ s)%Z as HLc by (unfold c; rewrite Hz, Hts; ring).
  clearbody c. clear Hz Hts z.
  remember (2 ^ (s - 1))%Z as half eqn:Ehalf.
  remember (2 ^ s)%Z as P eqn:EP.
  remember (2 ^ Z.log2 p)%Z as T eqn:ET.
  remember (2 ^ 53)%Z as K eqn:EK.
  clear Ehalf EP ET EK Hlt Hlt53 Hl53 Hhi Hs s Ht.
  subst P.
  assert (m * (2 * half) ≤ p)%Z as Hdown by lia.
  assert (half ≤ rem → (m + 1) * (2 * half) < L)%Z as Hup.
  { intros Hr. assert (m < c)%Z as Hmc by nia.
    destruct (Z.eq_dec (m + 1)%Z c) as [Heq|Hne]; [|nia].
    exfalso. assert (g ≤ half)%Z by nia. nia. }
  destruct (Z.ltb_spec rem half); [lia|].
  destruct (Z.ltb_spec half rem); [by apply Hup|].
  destruct (Z.even m); [lia|by apply Hup].
Qed.

Lemma Qfloor_unit_interval (k : N) :
  Qfloor (unit_interval k * inject_Z (2 ^ 1074)) = (Z.of_N (k mod 2 ^ 53)%N * 2 ^ 1021)%Z.
Proof.
  unfold unit_interval, Qfloor, Qmult, inject_Z. cbn [Qnum Qden].
  rewrite Pos.mul_1_r.
  change (Z.pos (2 ^ 53)) with (2 ^ 53)%Z.
  change (2 ^ 1074)%Z with (2 ^ (1021 + 53))%Z. rewrite Z.pow_add_r by done.
  rewrite Z.mul_assoc. by apply Z.div_mul.
Qed.

(** The product of a draw and the length may round up, but never to the
    length itself: the index is within the array. *)
Lemma floor_scaled_lt (k : N) (len : nat) :
  0 < len → (Z.of_nat len < 2 ^ 53)%Z → TestMode.floor_scaled (unit_interval k) len < len.
Proof.
  intros Hlen Hbound. unfold TestMode.floor_scaled. rewrite Qfloor_unit_interval.
  pose proof (N.mod_upper_bound k (2 ^ 53)%N ltac:(done)) as Hub.
  apply N2Z.inj_lt in Hub. change (Z.of_N (2 ^ 53)) with (2 ^ 53)%Z in Hub.
  pose proof (N2Z.is_nonneg (k `mod` 2 ^ 53)) as Hnn.
  generalize dependent (Z.of_N (k `mod` 2 ^ 53)). intros j Hub Hnn.
  assert (2 ^ 1074 = 2 ^ 1021 * 2 ^ 53)%Z as Hsplit.
  { change (2 ^ 1074)%Z with (2 ^ (1021 + 53))%Z. by rewrite Z.pow_add_r. }
  assert (0 < 2 ^ 1021)%Z as HA by (by apply Z.pow_pos_nonneg).
  assert (0 < 2 ^ 53)%Z as HK by (by apply Z.pow_pos_nonneg).
  assert (round53 (j * 2 ^ 1021 * Z.of_nat len) < Z.of_nat len * 2 ^ 1074)%Z as Hr.
  { apply (round53_below _ _ (Z.of_nat len * 2 ^ 1021)%Z 1074%Z).
    - done.
    - rewrite Hsplit. ring.
    - by exists (Z.of_nat len).
    - change (2 ^ (1074 + 53))%Z with (2 ^ (53 + 1074))%Z. rewrite Z.pow_add_r by done.
      apply Z.mul_lt_mono_pos_r; [|done]. by apply Z.pow_pos_nonneg.
    - lia.
    - rewrite Hsplit. clear Hsplit.
      remember (2 ^ 1021)%Z as A eqn:EA. remember (2 ^ 53)%Z as K eqn:EK. clear EA EK.
      assert (0 ≤ A * Z.of_nat len)%Z as Hnn' by nia.
      assert (j * (A * Z.of_nat len) ≤ (K - 1) * (A * Z.of_nat len))%Z as Hle
        by (apply Z.mul_le_mono_nonneg_r; lia).
      split; [nia|]. etrans; [|etrans; [exact Hle|]]; apply Z.eq_le_incl; ring. }
  assert (round53 (j * 2 ^ 1021 * Z.of_nat len) / 2 ^ 1074 < Z.of_nat len)%Z as Hq.
  { apply Z.div_lt_upper_bound; [by apply Z.pow_pos_nonneg|]. lia. }
  generalize dependent (round53 (j * 2 ^ 1021 * Z.of_nat len) / 2 ^ 1074)%Z. intros; lia.
Qed.

(** The product is rounded, not exact: three times the draw
    [6004799503160661 / 2^53] is [2 - 2^-53], halfway between two doubles,
    and the tie goes up to 2 where the exact product has integer part 1. A
    draw one step lower stays below 2; the largest draw stays in range. *)
Example floor_scaled_rounds :
  TestMode.floor_scaled (unit_interval 6004799503160661) 3 = 2
  ∧ Qfloor (unit_interval 6004799503160661 * inject_Z 3) = 1%Z
  ∧ TestMode.floor_scaled (unit_interval 6004799503160660) 3 = 1
  ∧ TestMode.floor_scaled (unit_interval 9007199254740991) 3 = 2
  ∧ TestMode.floor_scaled (unit_interval 0) 3 = 0.
Proof. by vm_compute. Qed.

Lemma TestMode_generateQuestion_total section allMeanings allWords i rs :
  Types.cards section ≠ [] →
  (Z.of_nat (length (Types.cards section)) < 2 ^ 53)%Z →
  ∃ q rs', TestMode.generateQuestion section allMeanings allWords i rs = Some (q, rs').
Proof.
  intros Hne Hbound. unfold TestMode.generateQuestion, bind, Math_random.
  set (rand := unit_interval (default 0%N (head (randoms (mkRandomSource _ _ _))))).
  assert (TestMode.floor_scaled (unit_interval (default 0%N (head (randoms rs))))
            (length (Types.cards section))
          < length (Types.cards section)) as Hidx.
  { apply floor_scaled_lt; [|done]. destruct (Types.cards section); [done|simpl; lia]. }
  apply lookup_lt_is_Some_2 in Hidx as [card ->].
  destruct (TestMode.questionType rand); simpl; eauto.
Qed.

(** ** The option invariant *)

Lemma placeholder_inj (prefix : jsstring) (k k' : nat) :
  1 ≤ k ≤ 3 → 1 ≤ k' ≤ 3 → placeholder prefix k = placeholder prefix k' → k = k'.
Proof.
  unfold placeholder. intros Hk Hk' Heq. apply app_inv_head in Heq.
  destruct k as [|[|[|[|k]]]]; try lia;
    destruct k' as [|[|[|[|k']]]]; try lia; vm_compute in Heq; congruence.
Qed.

Lemma filter_absent (correct : jsstring) (l : list jsstring) :
  correct ∉ l →
  filter (λ o, o = correct) l = [] ∧ filter (λ o, o ≠ correct) l = l.
Proof.
  induction l as [|x l IH]; [done|]. intros Hnot.
  apply not_elem_of_cons in Hnot as [Hne Hl]. destruct (IH Hl) as [IH1 IH2].
  rewrite filter_cons_False, filter_cons_True by congruence. by rewrite IH1, IH2.
Qed.

Lemma built_options_invariant (prefix : jsstring) (pool : list jsstring)
      (correct : jsstring) (options : list jsstring) :
  built_options prefix pool correct options →
  length options = 4
  ∧ correct ∈ options
  ∧ (∃ distractors,
        options ≡ₚ distractors ++ [correct]
        ∧ length distractors = 3
        ∧ Forall (λ d, (d ∈ pool ∧ d ≠ correct)
                       ∨ ∃ k, 1 ≤ k ≤ 3 ∧ d = placeholder prefix k) distractors)
  ∧ (NoDup (filter (λ m, m ≠ correct) pool) →
     (∀ k, 1 ≤ k ≤ 3 → placeholder prefix k ≠ correct ∧ placeholder prefix k ∉ pool) →
     option_invariant correct options).
Proof.
  intros (shuffled & Hperm & Hopts). rewrite fallback_unfold in Hopts.
  set (kept := take 3 shuffled) in *.
  assert (length kept ≤ 3) as Hkept by (unfold kept; rewrite length_take; lia).
  replace (3 `min` (3 - length kept)) with (3 - length kept) in Hopts by lia.
  set (ph := placeholder prefix <$> seq (length kept + 1) (3 - length kept)) in *.
  assert (length (kept ++ ph) = 3) as Hlen.
  { unfold ph. rewrite length_app, length_fmap, length_seq. lia. }
  assert (∀ d, d ∈ kept → d ∈ pool ∧ d ≠ correct) as Hin_kept.
  { intros d Hd%subseteq_take. rewrite Hperm in Hd.
    by apply list_elem_of_filter in Hd as [? ?]. }
  assert (∀ d, d ∈ ph → ∃ k, 1 ≤ k ≤ 3 ∧ d = placeholder prefix k) as Hin_ph.
  { intros d (k & -> & Hk%elem_of_seq)%list_elem_of_fmap. exists k. split; [lia|done]. }
  split; [|split; [|split]].
  - rewrite Hopts, length_app, Hlen. simpl; lia.
  - rewrite Hopts. apply elem_of_app. right. by left.
  - exists (kept ++ ph). split; [done|]. split; [done|].
    apply Forall_app; split; apply Forall_forall; auto.
  - intros Hnodup Hfresh.
    assert (NoDup (kept ++ ph)) as Hnd.
    { apply NoDup_app. split; [|split].
      - apply (sublist_NoDup kept shuffled); [by rewrite Hperm|apply sublist_take].
      - intros d Hd Hd'. destruct (Hin_ph d Hd') as (k & Hk & ->).
        apply Hin_kept in Hd as [Hd _]. by apply (Hfresh k Hk).
      - apply NoDup_fmap_2_strong; [|apply NoDup_seq].
        intros k k' Hk%elem_of_seq Hk'%elem_of_seq. apply placeholder_inj; lia. }
    assert (correct ∉ kept ++ ph) as Habs.
    { intros [Hd|Hd]%elem_of_app.
      - by apply Hin_kept in Hd as [_ ?].
      - destruct (Hin_ph _ Hd) as (k & Hk & Heq).
        destruct (Hfresh k Hk) as [Hne _]. congruence. }
    destruct (filter_absent correct (kept ++ ph) Habs) as [Heq Hne].
    split; [|split].
    + rewrite Hopts, length_app, Hlen. simpl; lia.
    + rewrite Hopts, filter_app, Heq. by rewrite filter_cons_True.
    + rewrite Hopts, filter_app, Hne. rewrite filter_cons_False by (intros ?; done).
      by rewrite filter_nil, app_nil_r.
Qed.

Lemma submseteq_NoDup {A} (l k : list A) : l ⊆+ k → NoDup k → NoDup l.
Proof.
  intros [k' Hk]%submseteq_Permutation Hnd. rewrite Hk in Hnd.
  by apply NoDup_app in Hnd as [? _].
Qed.

Lemma submseteq_elem_of {A} (l k : list A) (x : A) : l ⊆+ k → x ∈ l → x ∈ k.
Proof.
  intros [k' Hk]%submseteq_Permutation Hx. rewrite Hk. apply elem_of_app. by left.
Qed.

(** When options the code built keep the invariant of the specification:
    exactly when the values kept from the pool are pairwise distinct and
    each placeholder pushed after them, numbered from [length kept + 1] to
    3, differs from the correct answer and from the kept values. *)
Lemma built_options_exact (prefix : jsstring) (pool : list jsstring)
      (correct : jsstring) (options : list jsstring) :
  built_options prefix pool correct options →
  ∃ kept,
    kept ⊆+ filter (λ m, m ≠ correct) pool
    ∧ length kept = 3 `min` length (filter (λ m, m ≠ correct) pool)
    ∧ options ≡ₚ kept ++ (placeholder prefix <$> seq (length kept + 1) (3 - length kept))
                      ++ [correct]
    ∧ (option_invariant correct options
       ↔ NoDup kept
         ∧ ∀ k, length kept < k ≤ 3 →
                placeholder prefix k ≠ correct ∧ placeholder prefix k ∉ kept).
Proof.
  intros (shuffled & Hperm & Hopts). rewrite fallback_unfold in Hopts.
  exists (take 3 shuffled). set (kept := take 3 shuffled) in *.
  assert (length kept ≤ 3) as Hkept by (unfold kept; rewrite length_take; lia).
  replace (3 `min` (3 - length kept)) with (3 - length kept) in Hopts by lia.
  set (ph := placeholder prefix <$> seq (length kept + 1) (3 - length kept)) in *.
  assert (length (kept ++ ph) = 3) as Hlen.
  { unfold ph. rewrite length_app, length_fmap, length_seq. lia. }
  assert (correct ∉ kept) as Hck.
  { intros Hd%subseteq_take. rewrite Hperm in Hd.
    by apply list_elem_of_filter in Hd as [? ?]. }
  assert (NoDup ph) as Hndph.
  { apply NoDup_fmap_2_strong; [|apply NoDup_seq].
    intros k k' Hk%elem_of_seq Hk'%elem_of_seq. apply placeholder_inj; lia. }
  assert (∀ d, d ∈ ph ↔ ∃ k, length kept < k ≤ 3 ∧ d = placeholder prefix k) as Hph.
  { intros d. unfold ph. rewrite list_elem_of_fmap. split.
    - intros (k & -> & Hk%elem_of_seq). exists k. split; [lia|done].
    - intros (k & Hk & ->). exists k. split; [done|]. apply elem_of_seq. lia. }
  destruct (filter_absent correct kept Hck) as [Hk1 Hk2].
  split; [|split; [|split]].
  - rewrite <- Hperm. apply sublist_submseteq, sublist_take.
  - unfold kept. rewrite length_take, Hperm. lia.
  - by rewrite Hopts, <- app_assoc.
  - unfold option_invariant. rewrite Hopts, !filter_app, Hk1, Hk2, length_app, Hlen.
    rewrite filter_cons_True by done. rewrite (filter_cons_False _ correct) by (intros ?; done).
    rewrite !filter_nil, app_nil_r, length_app. simpl. split.
    + intros (_ & Hone & Hnd).
      assert (correct ∉ ph) as Hcp.
      { intros Hin. assert (correct ∈ filter (λ o, o = correct) ph) as Hf
          by (by apply list_elem_of_filter).
        destruct (filter (λ o, o = correct) ph); [by apply elem_of_nil in Hf|simpl in Hone; lia]. }
      destruct (filter_absent correct ph Hcp) as [_ Hp2]. rewrite Hp2 in Hnd.
      apply NoDup_app in Hnd as (Hndk & Hdisj & _). split; [done|].
      intros k Hk. assert (placeholder prefix k ∈ ph) as Hin by (apply Hph; eauto).
      split; [by intros Heq; rewrite Heq in Hin|]. intros Hin'. by apply (Hdisj _ Hin').
    + intros (Hndk & Hfresh).
      assert (correct ∉ ph) as Hcp.
      { intros (k & Hk & Heq)%Hph. by destruct (Hfresh k Hk) as [Hne _]. }
      destruct (filter_absent correct ph Hcp) as [Hp1 Hp2]. rewrite Hp1, Hp2.
      split; [done|]. split; [done|].
      apply NoDup_app. split; [done|]. split; [|done].
      intros d Hd (k & Hk & ->)%Hph. by destruct (Hfresh k Hk) as [_ Hnot].
Qed.

Lemma generated_mc_built (prefix : jsstring) (pool : list jsstring)
      (correct : jsstring) (options : list jsstring) :
  generated_mc prefix pool correct options → built_options prefix pool correct options.
Proof.
  intros [section rs qs rs' q Hgen Hq
         |section rs qs rs' q opts Hgen Hq Hty Hopts
         |section rs qs rs' q opts Hgen Hq Hty Hopts].
  - by destruct (QuizMode_generate_Some _ _ _ _ _ Hgen Hq).
  - apply TestMode_generate_Some in Hgen.
    apply (proj1 (Forall_forall _ _) Hgen) in Hq as [_ Hq].
    rewrite Hty in Hq. destruct Hq as (-> & opts' & Hopts' & Hb). congruence.
  - apply TestMode_generate_Some in Hgen.
    apply (proj1 (Forall_forall _ _) Hgen) in Hq as [_ Hq].
    rewrite Hty in Hq. destruct Hq as (-> & opts' & Hopts' & Hb). congruence.
Qed.

(** C3, as the code has it: the options of every generated multiple-choice
    question are the three sampled distractors and the correct answer in
    some order, so there are exactly 4 of them and the correct answer is
    among them; every distractor is a pool value different from the correct
    answer or a placeholder numbered 1 to 3. More exactly the options are
    the values [kept] from the pool ([min 3 m] of the [m] pool entries that
    differ from the correct answer), the placeholders numbered from
    [length kept + 1] to 3, and the correct answer; and they contain the
    correct answer exactly once with three pairwise distinct alternatives
    exactly when the kept values are pairwise distinct and no placeholder
    that was pushed equals the correct answer or a kept value. This holds
    in particular when the pool entries other than the correct answer are
    pairwise distinct and no placeholder numbered above their count, up to
    3, equals the correct answer or a pool value; for a pool with at most
    three such entries that condition is necessary as well. *)
Theorem generated_options_invariant (prefix : jsstring) (pool : list jsstring)
        (correct : jsstring) (options : list jsstring) :
  generated_mc prefix pool correct options →
  length options = 4
  ∧ correct ∈ options
  ∧ (∃ distractors,
        options ≡ₚ distractors ++ [correct]
        ∧ length distractors = 3
        ∧ Forall (λ d, (d ∈ pool ∧ d ≠ correct)
                       ∨ ∃ k, 1 ≤ k ≤ 3 ∧ d = placeholder prefix k) distractors)
  ∧ (∃ kept,
        kept ⊆+ filter (λ m, m ≠ correct) pool
        ∧ length kept = 3 `min` length (filter (λ m, m ≠ correct) pool)
        ∧ options ≡ₚ kept ++ (placeholder prefix <$> seq (length kept + 1) (3 - length kept))
                          ++ [correct]
        ∧ (option_invariant correct options
           ↔ NoDup kept
             ∧ ∀ k, length kept < k ≤ 3 →
                    placeholder prefix k ≠ correct ∧ placeholder prefix k ∉ kept))
  ∧ (NoDup (filter (λ m, m ≠ correct) pool) →
     (∀ k, length (filter (λ m, m ≠ correct) pool) < k ≤ 3 →
           placeholder prefix k ≠ correct ∧ placeholder prefix k ∉ pool) →
     option_invariant correct options)
  ∧ (length (filter (λ m, m ≠ correct) pool) ≤ 3 →
     (option_invariant correct options
      ↔ NoDup (filter (λ m, m ≠ correct) pool)
        ∧ ∀ k, length (filter (λ m, m ≠ correct) pool) < k ≤ 3 →
               placeholder prefix k ≠ correct ∧ placeholder prefix k ∉ pool)).
Proof.
  intros Hb%generated_mc_built.
  destruct (built_options_invariant _ _ _ _ Hb) as (Hlen & Hin & Hds & _).
  destruct (built_options_exact _ _ _ _ Hb) as (kept & Hsub & Hk & Hopts & Hiff).
  split; [done|]. split; [done|]. split; [done|].
  split; [by exists kept|]. split.
  - intros Hnd Hfresh. apply Hiff. split; [by eapply submseteq_NoDup|].
    intros k Hkr. destruct (Hfresh k ltac:(lia)) as [Hne Hnot]. split; [done|].
    intros Hin'. apply Hnot. apply (submseteq_elem_of _ _ _ Hsub) in Hin'.
    by apply list_elem_of_filter in Hin' as [_ ?].
  - intros Hshort.
    assert (kept ≡ₚ filter (λ m, m ≠ correct) pool) as Hperm
      by (apply submseteq_length_Permutation; [done|lia]).
    pose proof (Permutation_length Hperm) as Hlenp.
    rewrite Hiff. split; intros [Hnd Hfresh].
    + split; [by rewrite <- Hperm|]. intros k Hkr.
      destruct (Hfresh k ltac:(lia)) as [Hne Hnot]. split; [done|].
      intros Hin'. apply Hnot. rewrite Hperm. by apply list_elem_of_filter.
    + split; [by rewrite Hperm|]. intros k Hkr.
      destruct (Hfresh k ltac:(lia)) as [Hne Hnot]. split; [done|].
      intros Hin'. apply Hnot. rewrite Hperm in Hin'.
      by apply list_elem_of_filter in Hin' as [_ ?].
Qed.

Lemma shared_meaning_generated :
  generated_mc (js "Definition") (meaning <$> Types.cards section_shared_meaning)
               (js "x") [js "y"; js "y"; js "y"; js "x"].
Proof.
  eapply (generated_quiz section_shared_meaning quiet _ _
            (QuizMode.mkQuestion (js "q-0-") (card_of "a" "x")
                                 [js "y"; js "y"; js "y"; js "x"])).
  - vm_compute. reflexivity.
  - left.
Qed.

Lemma placeholder_meaning_generated :
  generated_mc (js "Definition") (meaning <$> Types.cards section_placeholder_meaning)
               (js "Definition 1")
               [js "Definition 1"; js "Definition 2"; js "Definition 3"; js "Definition 1"].
Proof.
  eapply (generated_quiz section_placeholder_meaning quiet _ _
            (QuizMode.mkQuestion (js "q-0-") (card_of "a" "Definition 1")
               [js "Definition 1"; js "Definition 2"; js "Definition 3"; js "Definition 1"])).
  - vm_compute. reflexivity.
  - left.
Qed.

(** C3, as stated, fails: when cards share a meaning the distractors repeat
    it, and a meaning that reads like a placeholder appears twice among the
    options. *)
Lemma option_invariant_counterexample :
  (generated_mc (js "Definition") (meaning <$> Types.cards section_shared_meaning)
                (js "x") [js "y"; js "y"; js "y"; js "x"]
   ∧ ¬ option_invariant (js "x") [js "y"; js "y"; js "y"; js "x"])
  ∧ (generated_mc (js "Definition") (meaning <$> Types.cards section_placeholder_meaning)
                  (js "Definition 1")
                  [js "Definition 1"; js "Definition 2"; js "Definition 3"; js "Definition 1"]
     ∧ ¬ option_invariant (js "Definition 1")
           [js "Definition 1"; js "Definition 2"; js "Definition 3"; js "Definition 1"]).
Proof.
  split; (split; [apply shared_meaning_generated || apply placeholder_meaning_generated|]).
  - intros H. pose proof (bool_decide_pack _ H) as Hb. by vm_compute in Hb.
  - intros H. pose proof (bool_decide_pack _ H) as Hb. by vm_compute in Hb.
Qed.

Lemma placeholder_among_generated :
  generated_mc (js "Definition") (meaning <$> Types.cards section_placeholder_among)
               (js "y") [js "Definition 1"; js "Definition 2"; js "Definition 3"; js "y"].
Proof.
  eapply (generated_quiz section_placeholder_among quiet _ _
            (QuizMode.mkQuestion (js "q-1-") (card_of "b" "y")
               [js "Definition 1"; js "Definition 2"; js "Definition 3"; js "y"])).
  - vm_compute. reflexivity.
  - right. left.
Defined.

Lemma generated_options_invariant_witness :
  generated_mc (js "Definition") (meaning <$> Types.cards section_placeholder_among)
               (js "y") [js "Definition 1"; js "Definition 2"; js "Definition 3"; js "y"]
  ∧ option_invariant (js "y")
      [js "Definition 1"; js "Definition 2"; js "Definition 3"; js "y"].
Proof.
  split; [apply placeholder_among_generated|].
  destruct (generated_options_invariant _ _ _ _ placeholder_among_generated)
    as (_ & _ & _ & _ & Hsufficient & _).
  apply Hsufficient.
  - apply (bool_decide_unpack _). by vm_compute.
  - intros k Hk.
    assert (k = 2 ∨ k = 3) as [-> | ->] by (vm_compute in Hk; lia);
      (split; apply (bool_decide_unpack _); by vm_compute).
Defined.

(** ** The size of the mixed test *)

(** [Math.ceil(n / 4)] is the least [c] with [n ≤ 4 * c]. *)
Lemma totalQuestions_ceiling (n : nat) :
  ∃ c, TestMode.totalQuestions n = n + c ∧ n ≤ 4 * c ∧ 4 * c < n + 4.
Proof.
  unfold TestMode.totalQuestions. eexists; split; [reflexivity|].
  unfold Qceiling, Qfloor, Qdiv, Qopp, Qmult, Qinv, inject_Z; simpl Qnum; simpl Qden.
  change (Z.pos (1 * 4)) with 4%Z. rewrite Z.mul_1_r.
  pose proof (Z.div_mod (- Z.of_nat n) 4 ltac:(done)) as Hdm.
  pose proof (Z.mod_pos_bound (- Z.of_nat n) 4 ltac:(done)) as Hmod.
  generalize dependent ((- Z.of_nat n) `div` 4)%Z.
  generalize dependent ((- Z.of_nat n) `mod` 4)%Z.
  intros; lia.
Qed.

(** C2: for every section of [n] cards and every random source the
    generation of the mixed test returns, without throwing, exactly
    [n + ceil(n/4)] questions, where [ceil(n/4)] is the least [c] with
    [n ≤ 4c]; 10 cards give 13 questions, 4 give 5, 1 gives 2, 0 give 0.
    The card of each question is drawn at the index
    [Math.floor(Math.random() * n)], a rounded product; [n] is the length of
    an array, which the language keeps below [2^32] (here: below [2^53]). *)
Theorem TestMode_generate_count (section : Section_) (rs : RandomSource) :
  (Z.of_nat (length (Types.cards section)) < 2 ^ 53)%Z →
  ∃ qs rs' c,
    TestMode.generate section rs = Some (qs, rs')
    ∧ length qs = length (Types.cards section) + c
    ∧ length (Types.cards section) ≤ 4 * c
    ∧ 4 * c < length (Types.cards section) + 4
    ∧ TestMode.totalQuestions 10 = 13
    ∧ TestMode.totalQuestions 4 = 5
    ∧ TestMode.totalQuestions 1 = 2
    ∧ TestMode.totalQuestions 0 = 0.
Proof.
  intros Hbound.
  destruct (totalQuestions_ceiling (length (Types.cards section))) as (c & Htotal & Hc1 & Hc2).
  unfold TestMode.generate.
  destruct (Types.cards section) as [|card0 cards0] eqn:Hcards.
  - exists [], (mkRandomSource (randoms rs) (tail (orders rs)) (uuids rs)), c.
    simpl in *. assert (c = 0) as -> by lia. by repeat split.
  - set (body := fun i generatedQuestions =>
                   bind (TestMode.generateQuestion section
                           (meaning <$> card0 :: cards0) (vocab <$> card0 :: cards0) i)
                        (fun q => ret (generatedQuestions ++ [q]))).
    destruct (for_loop_total body) with
      (count := TestMode.totalQuestions (length (card0 :: cards0))) (i := 0)
      (acc := @nil TestMode.Question) (rs := rs) as (qs0 & rs1 & Hloop & Hlen).
    { intros i acc rs0.
      destruct (TestMode_generateQuestion_total section
                  (meaning <$> card0 :: cards0) (vocab <$> card0 :: cards0) i rs0)
        as (q & rs2 & Hq); [by rewrite Hcards|by rewrite Hcards|].
      exists (acc ++ [q]), rs2. split.
      - unfold body, bind. by rewrite Hq.
      - rewrite length_app; simpl; lia. }
    destruct (sort_random_spec qs0 rs1) as (qs & rs' & Hsort & Hperm).
    exists qs, rs', c. split.
    { unfold bind. fold body. by rewrite Hloop. }
    rewrite Hperm, Hlen, Htotal. by repeat split.
Qed.

Lemma TestMode_generate_count_witness :
  ∃ qs rs' c,
    TestMode.generate section_four quiet = Some (qs, rs')
    ∧ length qs = length (Types.cards section_four) + c
    ∧ length (Types.cards section_four) ≤ 4 * c
    ∧ 4 * c < length (Types.cards section_four) + 4
    ∧ TestMode.totalQuestions 10 = 13
    ∧ TestMode.totalQuestions 4 = 5
    ∧ TestMode.totalQuestions 1 = 2
    ∧ TestMode.totalQuestions 0 = 0.
Proof.
  apply (TestMode_generate_count section_four quiet). by vm_compute.
Defined.

(** ** The roll of the shape *)

Lemma Qltb_lt (a b : Q) : TestMode.Qltb a b = true ↔ (a < b)%Q.
Proof.
  unfold TestMode.Qltb. rewrite negb_true_iff, <- not_true_iff_false, Qle_bool_iff.
  split; [apply Qnot_le_lt|apply Qlt_not_le].
Qed.

Lemma Qltb_ge (a b : Q) : TestMode.Qltb a b = false ↔ (b <= a)%Q.
Proof.
  unfold TestMode.Qltb. by rewrite negb_false_iff, Qle_bool_iff.
Qed.

(** C6, as the code has it: the shape is word→meaning when the draw is
    below the double 0.33, meaning→word when it is at least 0.33 and below
    the double 0.66, free text otherwise. The three intervals of [[0, 1)]
    have lengths 0.33, 0.33 and 0.34 up to the rounding of the literals
    (each literal exceeds its decimal value by less than [2^-54]): the first
    two are shorter than 1/3 and the third is longer. *)
Theorem questionType_intervals (rand : Q) :
  (TestMode.questionType rand = TestMode.mc_word_to_meaning
   ↔ (rand < TestMode.lit_0_33)%Q)
  ∧ (TestMode.questionType rand = TestMode.mc_meaning_to_word
     ↔ (TestMode.lit_0_33 <= rand)%Q ∧ (rand < TestMode.lit_0_66)%Q)
  ∧ (TestMode.questionType rand = TestMode.response
     ↔ (TestMode.lit_0_66 <= rand)%Q)
  ∧ (33 # 100 < TestMode.lit_0_33)%Q ∧ (TestMode.lit_0_33 < (33 # 100) + (1 # 2 ^ 54))%Q
  ∧ (66 # 100 < TestMode.lit_0_66)%Q ∧ (TestMode.lit_0_66 < (66 # 100) + (1 # 2 ^ 54))%Q
  ∧ (TestMode.lit_0_33 - 0 < 1 # 3)%Q
  ∧ (TestMode.lit_0_66 - TestMode.lit_0_33 < 1 # 3)%Q
  ∧ (1 # 3 < 1 - TestMode.lit_0_66)%Q.
Proof.
  assert (∀ P : Prop, (TestMode.lit_0_33 <= rand)%Q → (rand < TestMode.lit_0_33)%Q → P) as X1.
  { intros P Hle Hlt. by apply Qle_not_lt in Hle. }
  assert (∀ P : Prop, (TestMode.lit_0_66 <= rand)%Q → (rand < TestMode.lit_0_66)%Q → P) as X2.
  { intros P Hle Hlt. by apply Qle_not_lt in Hle. }
  assert (∀ P : Prop, (TestMode.lit_0_66 <= rand)%Q → (rand < TestMode.lit_0_33)%Q → P) as X3.
  { intros P Hle Hlt. exfalso. apply (Qlt_irrefl rand).
    eapply Qlt_le_trans; [|exact Hle]. eapply Qlt_trans; [exact Hlt|reflexivity]. }
  unfold TestMode.questionType.
  destruct (TestMode.Qltb rand TestMode.lit_0_33) eqn:H1;
    [apply Qltb_lt in H1
    |apply Qltb_ge in H1; destruct (TestMode.Qltb rand TestMode.lit_0_66) eqn:H2;
     [apply Qltb_lt in H2|apply Qltb_ge in H2]];
    (split; [|split; [|split]]); try (by vm_compute);
    (split; [done|]); try done; try (intros [? ?]); intros;
    first [eapply X1; eassumption | eapply X2; eassumption | eapply X3; eassumption].
Qed.

(** C6, as stated, fails: the draw 85/256 lies in the first third of
    [[0, 1)] and yet rolls the second shape. *)
Lemma questionType_thirds_counterexample :
  (unit_interval 2990671627550720 == 85 # 256)%Q
  ∧ (unit_interval 2990671627550720 < 1 # 3)%Q
  ∧ questionType_as_specified (unit_interval 2990671627550720)
    = TestMode.mc_word_to_meaning
  ∧ TestMode.questionType (unit_interval 2990671627550720)
    = TestMode.mc_meaning_to_word.
Proof. by vm_compute. Qed.

(** ** Grading *)

Lemma str_eqb_eq (a b : jsstring) : str_eqb a b = true ↔ a = b.
Proof. unfold str_eqb. apply bool_decide_eq_true. Qed.

(** The two gradings the specification lists among its testable properties. *)
Example gradeFreeText_examples :
  gradeFreeText asciiLowerCase (js "  Run ") (js "run") = true
  ∧ gradeFreeText asciiLowerCase (js "running") (js "run") = false
  ∧ normalizeString asciiLowerCase (js "  Take   OFF  ") = js "take off".
Proof. by vm_compute. Qed.

Lemma ResponseMode_checkAnswer_grade toLowerCase s currentCard :
  ResponseMode.cards s !! ResponseMode.index s = Some currentCard →
  ∃ s', ResponseMode.checkAnswer toLowerCase s = Some s'
        ∧ ResponseMode.isCorrect s'
          = gradeFreeText toLowerCase (ResponseMode.userInput s) (vocab currentCard).
Proof. intros Hc. unfold ResponseMode.checkAnswer. rewrite Hc. eauto. Qed.

Lemma TestMode_scoreStep_isAnswerCorrect toLowerCase userAnswers score q :
  TestMode.scoreStep toLowerCase userAnswers score q
  = score + (if TestMode.isAnswerCorrect toLowerCase userAnswers q then 1 else 0).
Proof.
  unfold TestMode.scoreStep, TestMode.isAnswerCorrect.
  destruct (userAnswers !! TestMode.id q) as [userAnswer|]; [|lia].
  destruct (negb (truthy userAnswer)); [lia|].
  destruct (TestMode.type q); destruct (str_eqb _ _); lia.
Qed.

Lemma TestMode_fold_scoreStep toLowerCase userAnswers qs score :
  fold_left (TestMode.scoreStep toLowerCase userAnswers) qs score
  = score + fold_left (TestMode.scoreStep toLowerCase userAnswers) qs 0.
Proof.
  revert score; induction qs as [|q qs IH]; intros score; simpl; [lia|].
  rewrite IH, (IH (TestMode.scoreStep _ _ 0 q)).
  rewrite !TestMode_scoreStep_isAnswerCorrect. lia.
Qed.

Lemma TestMode_calculateScore_app toLowerCase qs1 qs2 userAnswers done_ :
  TestMode.calculateScore toLowerCase (TestMode.mkState (qs1 ++ qs2) userAnswers done_)
  = TestMode.calculateScore toLowerCase (TestMode.mkState qs1 userAnswers done_)
    + TestMode.calculateScore toLowerCase (TestMode.mkState qs2 userAnswers done_).
Proof.
  unfold TestMode.calculateScore; simpl.
  by rewrite fold_left_app, TestMode_fold_scoreStep.
Qed.

(** The score is the number of questions that [isAnswerCorrect] accepts. *)
Lemma TestMode_calculateScore_count toLowerCase s :
  TestMode.calculateScore toLowerCase s
  = length (filter (λ q, TestMode.isAnswerCorrect toLowerCase (TestMode.userAnswers s) q = true)
                   (TestMode.questions s)).
Proof.
  unfold TestMode.calculateScore.
  induction (TestMode.questions s) as [|q qs IH]; [done|]. simpl.
  rewrite TestMode_fold_scoreStep, IH, TestMode_scoreStep_isAnswerCorrect.
  destruct (TestMode.isAnswerCorrect _ _ q) eqn:Hq.
  - by rewrite filter_cons_True.
  - rewrite filter_cons_False; [done|]. by rewrite Hq.
Qed.

(** C1, as the code has it: when the typed text and the reference both
    normalize to the empty string, response mode grades the answer correct
    (the tally of correct answers grows, the missed list does not), and the
    mixed test grades it correct and counts it in the score provided the
    stored answer is a non-empty string; an absent or empty stored answer is
    graded incorrect by the guard that precedes the comparison. *)
Theorem both_empty_graded_correct (toLowerCase : jsstring → jsstring) :
  (∀ s currentCard,
      ResponseMode.cards s !! ResponseMode.index s = Some currentCard →
      normalizeString toLowerCase (ResponseMode.userInput s) = [] →
      normalizeString toLowerCase (vocab currentCard) = [] →
      ∃ s', ResponseMode.checkAnswer toLowerCase s = Some s'
            ∧ ResponseMode.isCorrect s' = true
            ∧ ResponseMode.correct s' = ResponseMode.correct s + 1
            ∧ ResponseMode.incorrect s' = ResponseMode.incorrect s)
  ∧ (∀ userAnswers q userAnswer,
        TestMode.type q = TestMode.response →
        userAnswers !! TestMode.id q = Some userAnswer →
        userAnswer ≠ [] →
        normalizeString toLowerCase userAnswer = [] →
        normalizeString toLowerCase (TestMode.correctAnswer q) = [] →
        TestMode.isAnswerCorrect toLowerCase userAnswers q = true
        ∧ ∀ qs1 qs2 done_,
            TestMode.calculateScore toLowerCase
              (TestMode.mkState (qs1 ++ q :: qs2) userAnswers done_)
            = TestMode.calculateScore toLowerCase
                (TestMode.mkState (qs1 ++ qs2) userAnswers done_) + 1)
  ∧ (∀ userAnswers q,
        userAnswers !! TestMode.id q = None ∨ userAnswers !! TestMode.id q = Some [] →
        TestMode.isAnswerCorrect toLowerCase userAnswers q = false
        ∧ ∀ qs1 qs2 done_,
            TestMode.calculateScore toLowerCase
              (TestMode.mkState (qs1 ++ q :: qs2) userAnswers done_)
            = TestMode.calculateScore toLowerCase
                (TestMode.mkState (qs1 ++ qs2) userAnswers done_)).
Proof.
  assert (∀ userAnswers q qs1 qs2 done_,
            TestMode.calculateScore toLowerCase
              (TestMode.mkState (qs1 ++ q :: qs2) userAnswers done_)
            = TestMode.calculateScore toLowerCase
                (TestMode.mkState (qs1 ++ qs2) userAnswers done_)
              + (if TestMode.isAnswerCorrect toLowerCase userAnswers q then 1 else 0)) as Hscore.
  { intros. rewrite !TestMode_calculateScore_app.
    replace (q :: qs2) with ([q] ++ qs2) by done.
    rewrite TestMode_calculateScore_app. unfold TestMode.calculateScore at 2; simpl.
    rewrite TestMode_scoreStep_isAnswerCorrect. lia. }
  split; [|split].
  - intros s currentCard Hc Hu Hv. unfold ResponseMode.checkAnswer.
    rewrite Hc, Hu, Hv. eexists; split; [reflexivity|]. by simpl.
  - intros userAnswers q userAnswer Hty Hget Hne Hu Hc.
    assert (TestMode.isAnswerCorrect toLowerCase userAnswers q = true) as Hok.
    { unfold TestMode.isAnswerCorrect. rewrite Hget, Hty, Hu, Hc. by destruct userAnswer. }
    split; [done|]. intros. by rewrite Hscore, Hok.
  - intros userAnswers q Hget.
    assert (TestMode.isAnswerCorrect toLowerCase userAnswers q = false) as Hko.
    { unfold TestMode.isAnswerCorrect. by destruct Hget as [-> | ->]. }
    split; [done|]. intros. rewrite Hscore, Hko. lia.
Qed.

Lemma both_empty_graded_correct_witness :
  ∃ s', ResponseMode.checkAnswer asciiLowerCase
          (ResponseMode.mkState [card_of "  " "m"] 0 (js " ") false false [] 0 false) = Some s'
        ∧ ResponseMode.isCorrect s' = true
        ∧ ResponseMode.correct s' = 0 + 1
        ∧ ResponseMode.incorrect s' = [].
Proof.
  exact (proj1 (both_empty_graded_correct asciiLowerCase)
           (ResponseMode.mkState [card_of "  " "m"] 0 (js " ") false false [] 0 false)
           (card_of "  " "m") eq_refl eq_refl eq_refl).
Defined.

(** C1, as stated, fails for the mixed test: a free-text question whose
    reference is blank, answered and then cleared by the user, holds the
    stored answer [''], and both strings normalize to the empty string, yet
    the answer is graded incorrect and the score is 0. *)
Lemma mixed_test_empty_answer_counterexample :
  ∃ q0 q1 rs',
    TestMode.generate section_blank_vocab all_response = Some ([q0; q1], rs')
    ∧ TestMode.type q0 = TestMode.response
    ∧ let s := TestMode_run [TestMode.ResponseInput (TestMode.id q0) (js "a");
                             TestMode.ResponseInput (TestMode.id q0) (js "");
                             TestMode.EndTest]
                            (TestMode.mkState [q0; q1] ∅ false) in
      TestMode.userAnswers s !! TestMode.id q0 = Some []
      ∧ normalizeString asciiLowerCase [] = []
      ∧ normalizeString asciiLowerCase (TestMode.correctAnswer q0) = []
      ∧ gradeFreeText asciiLowerCase [] (TestMode.correctAnswer q0) = true
      ∧ TestMode.isAnswerCorrect asciiLowerCase (TestMode.userAnswers s) q0 = false
      ∧ TestMode.calculateScore asciiLowerCase s = 0.
Proof.
  eexists _, _, _. split; [by vm_compute|]. by vm_compute.
Qed.

(** ** The comparison of the listening exercise *)

Lemma TestMode_isAnswerCorrect_grade toLowerCase userAnswers q userAnswer :
  TestMode.type q = TestMode.response →
  userAnswers !! TestMode.id q = Some userAnswer →
  TestMode.isAnswerCorrect toLowerCase userAnswers q
  = truthy userAnswer && gradeFreeText toLowerCase userAnswer (TestMode.correctAnswer q).
Proof.
  intros Hty Hget. unfold TestMode.isAnswerCorrect. rewrite Hget, Hty.
  by destruct (truthy userAnswer).
Qed.

Lemma ListeningTest_checkAnswer_string toLowerCase userAnswers questionId user correct :
  userAnswers !! questionId = Some (ListeningTest.AString user) →
  ListeningTest.checkAnswer toLowerCase userAnswers questionId (ListeningTest.AString correct)
  = truthy user && ListeningTest.sameText toLowerCase user correct.
Proof.
  intros Hget. unfold ListeningTest.checkAnswer. rewrite Hget; simpl.
  by destruct (truthy user).
Qed.

(** C9, as the code has it: the listening exercise compares the lower-cased,
    trimmed strings, does not collapse inner whitespace, and rejects an
    empty answer before comparing. Whenever it accepts a typed answer, the
    rule of the core accepts the same pair: as the specification states the
    rule, as response mode checks the same input against a card with that
    reference, and as the mixed test grades a free-text question holding
    the same stored answer. When collapsing the runs of whitespace changes
    neither lower-cased, trimmed string, the verdict is that of the mixed
    test, whose grader has the same guard, and for a non-empty answer also
    that of the plain rule and of response mode. An empty answer is rejected
    by the listening exercise and by the mixed test, whereas response mode
    grades it by the plain rule, which accepts it when the reference
    normalizes to the empty string. *)
Theorem listening_comparison_refines_core (toLowerCase : jsstring → jsstring)
        (listeningAnswers : gmap jsstring ListeningTest.Answer)
        (testAnswers : gmap jsstring jsstring)
        (questionId user correct : jsstring) (q : TestMode.Question)
        (s : ResponseMode.State) (currentCard : Card) :
  listeningAnswers !! questionId = Some (ListeningTest.AString user) →
  testAnswers !! TestMode.id q = Some user →
  TestMode.type q = TestMode.response →
  TestMode.correctAnswer q = correct →
  ResponseMode.cards s !! ResponseMode.index s = Some currentCard →
  ResponseMode.userInput s = user →
  vocab currentCard = correct →
  (ListeningTest.checkAnswer toLowerCase listeningAnswers questionId
     (ListeningTest.AString correct) = true →
   gradeFreeText toLowerCase user correct = true
   ∧ TestMode.isAnswerCorrect toLowerCase testAnswers q = true
   ∧ ∃ s', ResponseMode.checkAnswer toLowerCase s = Some s'
           ∧ ResponseMode.isCorrect s' = true)
  ∧ (collapse_whitespace (trim (toLowerCase user)) = trim (toLowerCase user) →
     collapse_whitespace (trim (toLowerCase correct)) = trim (toLowerCase correct) →
     ListeningTest.checkAnswer toLowerCase listeningAnswers questionId
       (ListeningTest.AString correct)
     = TestMode.isAnswerCorrect toLowerCase testAnswers q
     ∧ (user ≠ [] →
        ListeningTest.checkAnswer toLowerCase listeningAnswers questionId
          (ListeningTest.AString correct)
        = gradeFreeText toLowerCase user correct
        ∧ ∃ s', ResponseMode.checkAnswer toLowerCase s = Some s'
                ∧ ResponseMode.isCorrect s'
                  = ListeningTest.checkAnswer toLowerCase listeningAnswers questionId
                      (ListeningTest.AString correct)))
  ∧ (user = [] →
     ListeningTest.checkAnswer toLowerCase listeningAnswers questionId
       (ListeningTest.AString correct) = false
     ∧ TestMode.isAnswerCorrect toLowerCase testAnswers q = false
     ∧ (∃ s', ResponseMode.checkAnswer toLowerCase s = Some s'
              ∧ ResponseMode.isCorrect s' = gradeFreeText toLowerCase [] correct)
     ∧ (toLowerCase [] = [] →
        (gradeFreeText toLowerCase [] correct = true
         ↔ normalizeString toLowerCase correct = []))).
Proof.
  intros Hl Ht Hty Hc Hcard Hinput Hvocab.
  destruct (ResponseMode_checkAnswer_grade toLowerCase s currentCard Hcard)
    as (s' & Hcheck & Hverdict).
  rewrite Hinput, Hvocab in Hverdict.
  rewrite (ListeningTest_checkAnswer_string _ _ _ _ _ Hl).
  rewrite (TestMode_isAnswerCorrect_grade _ _ _ _ Hty Ht), Hc.
  split; [|split].
  - unfold ListeningTest.sameText. intros [Htr Heq%str_eqb_eq]%andb_true_iff.
    assert (gradeFreeText toLowerCase user correct = true) as Hg.
    { unfold gradeFreeText, normalizeString. rewrite Heq. by apply str_eqb_eq. }
    rewrite Htr, Hg. split; [done|]. split; [done|].
    exists s'. by rewrite Hverdict.
  - intros Hu Hr.
    assert (ListeningTest.sameText toLowerCase user correct
            = gradeFreeText toLowerCase user correct) as Hsame.
    { unfold ListeningTest.sameText, gradeFreeText, normalizeString. by rewrite Hu, Hr. }
    rewrite Hsame. split; [done|]. intros Hne.
    assert (truthy user = true) as -> by (by destruct user).
    split; [done|]. exists s'. by rewrite Hverdict.
  - intros ->. simpl. split; [done|]. split; [done|]. split; [by exists s'|].
    intros Hlow. unfold gradeFreeText, normalizeString at 1. rewrite Hlow.
    change (collapse_whitespace (trim [])) with (@nil N).
    rewrite str_eqb_eq. split; intros Heq; by rewrite Heq.
Qed.

Lemma listening_comparison_refines_core_witness :
  gradeFreeText asciiLowerCase (js " Run ") (js "run") = true
  ∧ TestMode.isAnswerCorrect asciiLowerCase (<[js "q-0-" := js " Run "]> ∅)
      (TestMode.mkQuestion (js "q-0-") TestMode.response (card_of "run" "m") None (js "run"))
    = true
  ∧ ∃ s', ResponseMode.checkAnswer asciiLowerCase
            (ResponseMode.mkState [card_of "run" "m"] 0 (js " Run ") false false [] 0 false)
          = Some s'
          ∧ ResponseMode.isCorrect s' = true.
Proof.
  destruct (listening_comparison_refines_core asciiLowerCase
              (<[js "1" := ListeningTest.AString (js " Run ")]> ∅)
              (<[js "q-0-" := js " Run "]> ∅)
              (js "1") (js " Run ") (js "run")
              (TestMode.mkQuestion (js "q-0-") TestMode.response (card_of "run" "m")
                                   None (js "run"))
              (ResponseMode.mkState [card_of "run" "m"] 0 (js " Run ") false false [] 0 false)
              (card_of "run" "m"))
    as (Haccepts & _); [by vm_compute..|].
  apply Haccepts. by vm_compute.
Defined.

(** The empty answer apart: against an empty reference the listening
    exercise rejects it, where the plain rule and response mode accept it
    and collapsing the whitespace changes nothing. *)
Example listening_empty_answer :
  ListeningTest.checkAnswer asciiLowerCase
    (<[js "1" := ListeningTest.AString (js "")]> ∅) (js "1")
    (ListeningTest.AString (js "")) = false
  ∧ gradeFreeText asciiLowerCase (js "") (js "") = true
  ∧ collapse_whitespace (trim (asciiLowerCase (js ""))) = trim (asciiLowerCase (js ""))
  ∧ (∃ s', ResponseMode.checkAnswer asciiLowerCase
             (ResponseMode.mkState [card_of "" "m"] 0 (js "") false false [] 0 false)
           = Some s' ∧ ResponseMode.isCorrect s' = true).
Proof.
  split; [by vm_compute|]. split; [by vm_compute|]. split; [by vm_compute|].
  eexists; split; [by vm_compute|done].
Qed.

(** C9, as stated, fails: "a  b" (two spaces) against the reference "a b"
    is rejected by the listening exercise and accepted by the core rule. *)
Lemma listening_comparison_counterexample :
  ListeningTest.checkAnswer asciiLowerCase
    (<[js "1" := ListeningTest.AString (js "a  b")]> ∅) (js "1")
    (ListeningTest.AString (js "a b")) = false
  ∧ gradeFreeText asciiLowerCase (js "a  b") (js "a b") = true
  ∧ TestMode.isAnswerCorrect asciiLowerCase (<[js "q-0-" := js "a  b"]> ∅)
      (TestMode.mkQuestion (js "q-0-") TestMode.response (card_of "a b" "m") None (js "a b"))
    = true
  ∧ (∃ s', ResponseMode.checkAnswer asciiLowerCase
             (ResponseMode.mkState [card_of "a b" "m"] 0 (js "a  b") false false [] 0 false)
           = Some s' ∧ ResponseMode.isCorrect s' = true).
Proof.
  split; [by vm_compute|]. split; [by vm_compute|]. split; [by vm_compute|].
  eexists; split; [by vm_compute|done].
Qed.

(** ** Flashcard navigation and restart *)

(** C8: [handleBack] at index 0 leaves the state as it is; at an index
    [i > 0] it moves to [i - 1] and leaves the remembered count, the
    forgotten list, the cards and the phase unchanged. *)
Theorem handleBack_frame (s : FlashcardMode.State) :
  (FlashcardMode.index s = 0 → FlashcardMode.handleBack s = s)
  ∧ (0 < FlashcardMode.index s →
     FlashcardMode.index (FlashcardMode.handleBack s) = FlashcardMode.index s - 1
     ∧ FlashcardMode.remembered (FlashcardMode.handleBack s) = FlashcardMode.remembered s
     ∧ FlashcardMode.forgotten (FlashcardMode.handleBack s) = FlashcardMode.forgotten s
     ∧ FlashcardMode.cards (FlashcardMode.handleBack s) = FlashcardMode.cards s
     ∧ FlashcardMode.isDone (FlashcardMode.handleBack s) = FlashcardMode.isDone s).
Proof.
  unfold FlashcardMode.handleBack. split.
  - by intros ->.
  - intros Hpos. apply Nat.ltb_lt in Hpos. by rewrite Hpos.
Qed.

Lemma handleBack_frame_witness :
  FlashcardMode.handleBack
    (FlashcardMode.mkState [card_of "a" "x"; card_of "b" "y"] 0 true [] 0 false)
  = FlashcardMode.mkState [card_of "a" "x"; card_of "b" "y"] 0 true [] 0 false
  ∧ FlashcardMode.index
      (FlashcardMode.handleBack
         (FlashcardMode.mkState [card_of "a" "x"; card_of "b" "y"] 1 true
                                [card_of "a" "x"] 0 false)) = 1 - 1.
Proof.
  split.
  - exact (proj1 (handleBack_frame
             (FlashcardMode.mkState [card_of "a" "x"; card_of "b" "y"] 0 true [] 0 false))
             eq_refl).
  - exact (proj1 (proj2 (handleBack_frame
             (FlashcardMode.mkState [card_of "a" "x"; card_of "b" "y"] 1 true
                                    [card_of "a" "x"] 0 false))
             ltac:(simpl; lia))).
Defined.

(** C7: the retry-missed action of flashcard and of response mode returns
    a state at index 0, in progress, with empty tallies (and, in response
    mode, an empty input and no feedback), whose cards are a permutation of
    exactly the previously missed cards; and every permutation of them is
    the outcome for some random source. *)
Theorem restart_with_missed :
  (∀ s rs,
      ∃ s' rs', FlashcardMode.restartWithForgotten s rs = Some (s', rs')
                ∧ FlashcardMode.cards s' ≡ₚ FlashcardMode.forgotten s
                ∧ FlashcardMode.index s' = 0
                ∧ FlashcardMode.forgotten s' = []
                ∧ FlashcardMode.remembered s' = 0
                ∧ FlashcardMode.isDone s' = false)
  ∧ (∀ s rs,
        ∃ s' rs', ResponseMode.restartWithIncorrect s rs = Some (s', rs')
                  ∧ ResponseMode.cards s' ≡ₚ ResponseMode.incorrect s
                  ∧ ResponseMode.index s' = 0
                  ∧ ResponseMode.incorrect s' = []
                  ∧ ResponseMode.correct s' = 0
                  ∧ ResponseMode.userInput s' = []
                  ∧ ResponseMode.showFeedback s' = false
                  ∧ ResponseMode.isDone s' = false)
  ∧ (∀ s cards', FlashcardMode.forgotten s ≡ₚ cards' →
        ∃ rs s' rs', FlashcardMode.restartWithForgotten s rs = Some (s', rs')
                     ∧ FlashcardMode.cards s' = cards')
  ∧ (∀ s cards', ResponseMode.incorrect s ≡ₚ cards' →
        ∃ rs s' rs', ResponseMode.restartWithIncorrect s rs = Some (s', rs')
                     ∧ ResponseMode.cards s' = cards').
Proof.
  split; [|split; [|split]].
  - intros s rs. eexists _, _. split; [reflexivity|]. simpl.
    split; [apply reorder_perm|done].
  - intros s rs. eexists _, _. split; [reflexivity|]. simpl.
    split; [apply reorder_perm|done].
  - intros s cards' (rs & rs' & Hs)%sort_random_complete.
    exists rs. unfold FlashcardMode.restartWithForgotten, bind. rewrite Hs.
    by eexists _, _.
  - intros s cards' (rs & rs' & Hs)%sort_random_complete.
    exists rs. unfold ResponseMode.restartWithIncorrect, bind. rewrite Hs.
    by eexists _, _.
Qed.

Lemma restart_with_missed_witness :
  ∃ rs s' rs',
    FlashcardMode.restartWithForgotten
      (FlashcardMode.mkState [card_of "a" "x"; card_of "b" "y"] 1 false
                             [card_of "a" "x"; card_of "b" "y"] 0 true) rs = Some (s', rs')
    ∧ FlashcardMode.cards s' = [card_of "b" "y"; card_of "a" "x"].
Proof.
  exact (proj1 (proj2 (proj2 restart_with_missed))
           (FlashcardMode.mkState [card_of "a" "x"; card_of "b" "y"] 1 false
                                  [card_of "a" "x"; card_of "b" "y"] 0 true)
           [card_of "b" "y"; card_of "a" "x"]
           (perm_swap _ _ _)).
Defined.

(** ** The stored answers *)

Lemma QuizMode_dispatch_answers (e : QuizMode.Event) (s : QuizMode.State) :
  QuizMode.userAnswers (QuizMode.dispatch e s) = QuizMode.userAnswers s
  ∨ ∃ questionId option,
      QuizMode.userAnswers (QuizMode.dispatch e s)
      = <[questionId := option]> (QuizMode.userAnswers s).
Proof.
  destruct e as [qid opt|]; simpl; [|by left].
  unfold QuizMode.handleSelect. destruct (QuizMode.isDone s); [by left|right; eauto].
Qed.



(** ** The tallies of a session *)

Lemma flashcard_dispatch_tally e s rs s' rs' :
  e ≠ FlashcardMode.Back →
  flashcard_tally s →
  FlashcardMode.dispatch e s rs = Some (s', rs') →
  flashcard_tally s'.
Proof.
  intros Hback [Hsum Hend]. unfold FlashcardMode.dispatch.
  destruct (FlashcardMode.enabled e s) eqn:Hen; [|by intros [<- _]%ret_Some].
  unfold FlashcardMode.enabled in Hen.
  destruct (FlashcardMode.cards s) as [|c0 cs] eqn:Hcards; [done|].
  destruct e as [b| |]; [| done |].
  - apply negb_true_iff in Hen. unfold FlashcardMode.handleResponse.
    rewrite Hcards. rewrite <- Hcards.
    destruct (FlashcardMode.cards s !! FlashcardMode.index s) as [current|] eqn:Hcur; [|done].
    apply lookup_lt_Some in Hcur. rewrite Hen in Hsum.
    intros [<- _]%ret_Some. unfold flashcard_tally.
    destruct (Nat.ltb_spec (FlashcardMode.index s) (length (FlashcardMode.cards s) - 1));
      destruct b; simpl; rewrite ?Hen, ?length_app; simpl; split; (lia || (intros; lia) || done).
  - unfold FlashcardMode.restartWithForgotten.
    intros (shuffled & rs1 & _ & [<- _]%ret_Some)%bind_Some.
    by split.
Qed.

(** Without Back, a flashcard session that is done has tallied each card
    once. *)
Lemma flashcard_tally_without_back es section rs s rs' :
  Forall (λ e, e ≠ FlashcardMode.Back) es →
  (let* s0 := FlashcardMode.start section in FlashcardMode.run es s0) rs = Some (s, rs') →
  FlashcardMode.isDone s = true →
  FlashcardMode.remembered s + length (FlashcardMode.forgotten s)
  = length (FlashcardMode.cards s).
Proof.
  intros Hes (s0 & rs0 & Hstart & Hrun)%bind_Some Hdone.
  assert (flashcard_tally s0) as H0.
  { unfold FlashcardMode.start in Hstart.
    apply bind_Some in Hstart as (shuffled & rs1 & _ & [<- _]%ret_Some). by split. }
  assert (flashcard_tally s) as [Hsum Hend].
  { clear Hstart Hdone. revert s0 rs0 H0 Hrun.
    induction Hes as [|e es He Hes IH]; intros s0 rs0 H0; simpl.
    - by intros [<- _]%ret_Some.
    - intros (s1 & rs1 & Hd & Hrun)%bind_Some.
      eapply IH; [|exact Hrun]. by eapply flashcard_dispatch_tally. }
  rewrite Hdone in Hsum. specialize (Hend Hdone). lia.
Qed.

Lemma response_dispatch_tally toLowerCase e s rs s' rs' :
  response_tally s →
  ResponseMode.dispatch toLowerCase e s rs = Some (s', rs') →
  response_tally s'.
Proof.
  intros (Hsum & Hidx & Hend). unfold ResponseMode.dispatch.
  destruct (ResponseMode.enabled e s) eqn:Hen; [|by intros [<- _]%ret_Some].
  unfold ResponseMode.enabled in Hen.
  destruct (ResponseMode.cards s) as [|c0 cs] eqn:Hcards; [done|].
  rewrite <- Hcards in *. destruct Hidx as [Hidx|Hnil]; [|congruence].
  destruct e as [v| | |].
  - intros [<- _]%ret_Some. unfold response_tally; simpl.
    split; [done|split; [by left|done]].
  - apply andb_true_iff in Hen as [Hd%negb_true_iff Hf%negb_true_iff].
    unfold ResponseMode.checkAnswer.
    destruct (ResponseMode.cards s !! ResponseMode.index s) as [currentCard|]; [|done].
    intros [<- _]%ret_Some. rewrite Hf in Hsum. unfold response_tally; simpl.
    split; [|split; [by left|by rewrite Hd]].
    destruct (str_eqb _ _); simpl; rewrite ?length_app; simpl; lia.
  - apply andb_true_iff in Hen as [Hd%negb_true_iff Hf].
    intros [<- _]%ret_Some. rewrite Hf in Hsum. unfold ResponseMode.handleNext.
    destruct (Nat.ltb_spec (ResponseMode.index s) (length (ResponseMode.cards s) - 1));
      unfold response_tally; simpl.
    + split; [lia|]. split; [left; lia|by rewrite Hd].
    + rewrite Hf. split; [lia|]. split; [by left|]. intros _. split; [done|lia].
  - apply andb_true_iff in Hen as [_ Hne%negb_true_iff%bool_decide_eq_false].
    unfold ResponseMode.restartWithIncorrect.
    intros (shuffled & rs1 & Hsh%sort_random_Some & [<- _]%ret_Some)%bind_Some.
    unfold response_tally; simpl. split; [done|]. split; [|done].
    left. rewrite Hsh. destruct (ResponseMode.incorrect s); [done|simpl; lia].
Qed.

(** A response session that is done has tallied each card once. *)
Lemma response_tally_done toLowerCase es section rs s rs' :
  (let* s0 := ResponseMode.start section in ResponseMode.run toLowerCase es s0) rs
  = Some (s, rs') →
  ResponseMode.isDone s = true →
  ResponseMode.correct s + length (ResponseMode.incorrect s)
  = length (ResponseMode.cards s).
Proof.
  intros (s0 & rs0 & Hstart & Hrun)%bind_Some Hdone.
  assert (response_tally s0) as H0.
  { unfold ResponseMode.start in Hstart.
    apply bind_Some in Hstart as (shuffled & rs1 & _ & [<- _]%ret_Some).
    unfold response_tally; simpl. split; [done|]. split; [|done].
    destruct shuffled; [by right|left; simpl; lia]. }
  assert (response_tally s) as (Hsum & _ & Hend).
  { clear Hstart Hdone. revert s0 rs0 H0 Hrun.
    induction es as [|e es IH]; intros s0 rs0 H0; simpl.
    - by intros [<- _]%ret_Some.
    - intros (s1 & rs1 & Hd & Hrun)%bind_Some.
      eapply IH; [|exact Hrun]. by eapply response_dispatch_tally. }
  destruct (Hend Hdone) as [Hf Hlen]. rewrite Hf in Hsum. lia.
Qed.

(** A card enters the missed list of response mode exactly when the
    free-text rule rejects the typed answer. *)
Lemma response_missed_fails_grader toLowerCase s s' currentCard :
  ResponseMode.cards s !! ResponseMode.index s = Some currentCard →
  ResponseMode.checkAnswer toLowerCase s = Some s' →
  (gradeFreeText toLowerCase (ResponseMode.userInput s) (vocab currentCard) = false
   ∧ ResponseMode.incorrect s' = ResponseMode.incorrect s ++ [currentCard]
   ∧ ResponseMode.correct s' = ResponseMode.correct s)
  ∨ (gradeFreeText toLowerCase (ResponseMode.userInput s) (vocab currentCard) = true
     ∧ ResponseMode.incorrect s' = ResponseMode.incorrect s
     ∧ ResponseMode.correct s' = ResponseMode.correct s + 1).
Proof.
  intros Hc. unfold ResponseMode.checkAnswer, gradeFreeText. rewrite Hc.
  intros [= <-]. destruct (str_eqb _ _); simpl; [by right|by left].
Qed.

(** In the mixed test the score and the questions that [isAnswerCorrect]
    rejects add up to the number of questions. *)
Lemma TestMode_score_missed_total toLowerCase s :
  TestMode.calculateScore toLowerCase s
  + length (filter (λ q, ¬ TestMode.isAnswerCorrect toLowerCase (TestMode.userAnswers s) q = true)
                   (TestMode.questions s))
  = length (TestMode.questions s).
Proof.
  rewrite TestMode_calculateScore_count, <- length_app.
  by rewrite filter_app_complement.
Qed.

(** C5 at the failing input: two cards; "Got it" on the first, Back,
    "Got it" on the first again, "Got it" on the second. The session ends
    with 3 mastered and 0 to review out of 2 cards. *)
Theorem flashcard_back_counts_twice :
  ∃ s rs',
    (let* s0 := FlashcardMode.start section_two in
     FlashcardMode.run [FlashcardMode.Respond true; FlashcardMode.Back;
                        FlashcardMode.Respond true; FlashcardMode.Respond true] s0) quiet
    = Some (s, rs')
    ∧ FlashcardMode.isDone s = true
    ∧ length (FlashcardMode.cards s) = 2
    ∧ FlashcardMode.remembered s = 3
    ∧ FlashcardMode.forgotten s = []
    ∧ FlashcardMode.remembered s + length (FlashcardMode.forgotten s)
      ≠ length (FlashcardMode.cards s).
Proof.
  eexists _, _. split; [by vm_compute|]. simpl. repeat split; lia.
Qed.


(** * Further properties of the code *)

(** ** Whitespace normalisation *)

Lemma trimStart_head (s : jsstring) (c : N) :
  head (trimStart s) = Some c → is_whitespace c = false.
Proof.
  induction s as [|x s IH]; simpl; [done|].
  destruct (is_whitespace x) eqn:Hx; [done|]. simpl. by intros [= <-].
Qed.

Lemma trimStart_fixed (s : jsstring) :
  (∀ c, head s = Some c → is_whitespace c = false) → trimStart s = s.
Proof.
  destruct s as [|x s]; simpl; [done|]. intros H. by rewrite (H x eq_refl).
Qed.

Lemma trimStart_split (s : jsstring) :
  ∃ w, s = w ++ trimStart s ∧ Forall (λ c, is_whitespace c = true) w.
Proof.
  induction s as [|x s (w & Hs & Hw)]; simpl.
  - by exists [].
  - destruct (is_whitespace x) eqn:Hx.
    + exists (x :: w). split; [simpl; by rewrite <- Hs|by constructor].
    + by exists [].
Qed.

Lemma rev_is_reverse {A} (l : list A) : rev l = reverse l.
Proof. unfold reverse. apply rev_alt. Qed.

Lemma last_rev_head (s : jsstring) : last s = head (rev s).
Proof. by rewrite rev_is_reverse, head_reverse. Qed.

Lemma head_rev_last (s : jsstring) : head s = last (rev s).
Proof. by rewrite last_rev_head, rev_involutive. Qed.

Lemma trimEnd_last (s : jsstring) (c : N) :
  last (trimEnd s) = Some c → is_whitespace c = false.
Proof. unfold trimEnd. rewrite last_rev_head, rev_involutive. apply trimStart_head. Qed.

Lemma trimEnd_fixed (s : jsstring) :
  (∀ c, last s = Some c → is_whitespace c = false) → trimEnd s = s.
Proof.
  intros H. unfold trimEnd. rewrite trimStart_fixed; [apply rev_involutive|].
  intros c. rewrite <- last_rev_head. apply H.
Qed.

Lemma trimEnd_split (s : jsstring) :
  ∃ w, s = trimEnd s ++ w ∧ Forall (λ c, is_whitespace c = true) w.
Proof.
  unfold trimEnd. destruct (trimStart_split (rev s)) as (w & Hs & Hw).
  exists (rev w). split.
  - rewrite <- rev_app_distr, <- Hs. by rewrite rev_involutive.
  - rewrite rev_is_reverse. by apply Forall_reverse.
Qed.

Lemma trimEnd_head (s : jsstring) (c : N) :
  (∀ c, head s = Some c → is_whitespace c = false) →
  head (trimEnd s) = Some c → is_whitespace c = false.
Proof.
  intros Hs. destruct (trimEnd_split s) as (w & Heq & Hw).
  destruct (trimEnd s) as [|x t]; [done|]. simpl. intros [= <-].
  apply Hs. by rewrite Heq.
Qed.

Lemma trim_trimmed (s : jsstring) : trimmed (trim s).
Proof.
  unfold trim. split.
  - intros c. apply trimEnd_head. apply trimStart_head.
  - apply trimEnd_last.
Qed.

Lemma trim_fixed (s : jsstring) : trimmed s → trim s = s.
Proof.
  intros [Hh Hl]. unfold trim. rewrite (trimStart_fixed s Hh). by apply trimEnd_fixed.
Qed.

Lemma replace_ws_runs_single_spaced (b : bool) (s : jsstring) :
  single_spaced b (replace_ws_runs b s).
Proof.
  revert b; induction s as [|c s IH]; intros b; simpl; [done|].
  destruct (is_whitespace c) eqn:Hc.
  - destruct b; [apply IH|]. simpl. change (is_whitespace SPACE) with true. simpl.
    by repeat split.
  - simpl. rewrite Hc. apply IH.
Qed.

Lemma single_spaced_fixed (b : bool) (s : jsstring) :
  single_spaced b s → replace_ws_runs b s = s.
Proof.
  revert b; induction s as [|c s IH]; intros b; simpl; [done|].
  destruct (is_whitespace c).
  - intros (-> & -> & Hs). by rewrite (IH true Hs).
  - intros Hs. by rewrite (IH false Hs).
Qed.

Lemma replace_ws_runs_head (s : jsstring) (c : N) :
  (∀ c, head s = Some c → is_whitespace c = false) →
  head (replace_ws_runs false s) = Some c → is_whitespace c = false.
Proof.
  destruct s as [|x s]; simpl; [done|]. intros H. rewrite (H x eq_refl). simpl.
  intros [= <-]. by apply H.
Qed.

Lemma replace_ws_runs_snoc (b : bool) (s : jsstring) (x : N) :
  is_whitespace x = false →
  replace_ws_runs b (s ++ [x]) = replace_ws_runs b s ++ [x].
Proof.
  intros Hx. revert b; induction s as [|a s IH]; intros b; simpl.
  - by rewrite Hx.
  - destruct (is_whitespace a); destruct b; by rewrite IH.
Qed.

Lemma replace_ws_runs_last (b : bool) (s : jsstring) (c : N) :
  (∀ c, last s = Some c → is_whitespace c = false) →
  last (replace_ws_runs b s) = Some c → is_whitespace c = false.
Proof.
  destruct s as [|x s _] using rev_ind; [done|]. intros Hl.
  pose proof (Hl x (last_snoc x s)) as Hx.
  rewrite (replace_ws_runs_snoc b s x Hx), last_snoc. by intros [= <-].
Qed.

Lemma single_spaced_weaken (s : jsstring) : single_spaced true s → single_spaced false s.
Proof. destruct s as [|c s]; simpl; [done|]. destruct (is_whitespace c); [by intros (_ & ? & _)|done]. Qed.

Lemma single_spaced_elem (b : bool) (s : jsstring) (c : N) :
  single_spaced b s → c ∈ s → is_whitespace c = true → c = SPACE.
Proof.
  revert b; induction s as [|x s IH]; intros b Hs Hc Hw; [by apply elem_of_nil in Hc|].
  simpl in Hs. apply elem_of_cons in Hc as [->|Hc].
  - rewrite Hw in Hs. by destruct Hs.
  - destruct (is_whitespace x); [destruct Hs as (_ & _ & Hs)|]; eauto.
Qed.

(** X1: whatever [toLowerCase] does, the result of [normalizeString] has no
    whitespace at either end, its only whitespace code unit is U+0020 and
    no two of them are adjacent; trimming it or collapsing its whitespace
    again changes nothing. *)
Theorem normalizeString_normal_form (toLowerCase : jsstring → jsstring) (str : jsstring) :
  trimmed (normalizeString toLowerCase str)
  ∧ single_spaced false (normalizeString toLowerCase str)
  ∧ (∀ c, c ∈ normalizeString toLowerCase str → is_whitespace c = true → c = SPACE)
  ∧ trim (normalizeString toLowerCase str) = normalizeString toLowerCase str
  ∧ collapse_whitespace (normalizeString toLowerCase str) = normalizeString toLowerCase str.
Proof.
  unfold normalizeString, collapse_whitespace.
  destruct (trim_trimmed (toLowerCase str)) as [Hh Hl].
  assert (trimmed (replace_ws_runs false (trim (toLowerCase str)))) as Htr.
  { split; intros c; [by apply replace_ws_runs_head|by apply replace_ws_runs_last]. }
  pose proof (replace_ws_runs_single_spaced false (trim (toLowerCase str))) as Hss.
  split; [done|]. split; [done|]. split; [|split].
  - intros c. by apply (single_spaced_elem false).
  - by apply trim_fixed.
  - by apply single_spaced_fixed.
Qed.

(** X2: normalising is idempotent on every string whose normal form is left
    alone by [toLowerCase] (lower-casing an already lower-cased string);
    the free-text rule then grades the normal form of a reference against
    the reference as correct. *)
Theorem normalizeString_idempotent (toLowerCase : jsstring → jsstring) (x : jsstring) :
  toLowerCase (normalizeString toLowerCase x) = normalizeString toLowerCase x →
  normalizeString toLowerCase (normalizeString toLowerCase x) = normalizeString toLowerCase x
  ∧ gradeFreeText toLowerCase (normalizeString toLowerCase x) x = true.
Proof.
  intros Hlow.
  destruct (normalizeString_normal_form toLowerCase x) as (_ & _ & _ & Htrim & Hcol).
  assert (normalizeString toLowerCase (normalizeString toLowerCase x)
          = normalizeString toLowerCase x) as Hidem.
  { unfold normalizeString at 1. by rewrite Hlow, Htrim, Hcol. }
  split; [done|]. unfold gradeFreeText. rewrite Hidem. by apply str_eqb_eq.
Qed.

Lemma normalizeString_idempotent_witness :
  normalizeString asciiLowerCase (normalizeString asciiLowerCase (js "  Take   OFF "))
  = normalizeString asciiLowerCase (js "  Take   OFF ")
  ∧ gradeFreeText asciiLowerCase (normalizeString asciiLowerCase (js "  Take   OFF "))
                  (js "  Take   OFF ") = true.
Proof.
  exact (normalizeString_idempotent asciiLowerCase (js "  Take   OFF ") eq_refl).
Defined.

(** ** Question identifiers *)

Lemma js_digits (d : Decimal.uint) (c : N) :
  c ∈ js (NilEmpty.string_of_uint d) → (48 ≤ c ≤ 57)%N.
Proof.
  unfold js. induction d; simpl; try (intros []%elem_of_nil);
    (intros [->|H]%elem_of_cons; [by vm_compute|by apply IHd]).
Qed.

Lemma decimal_digits (n : nat) (c : N) : c ∈ decimal n → (48 ≤ c ≤ 57)%N.
Proof.
  unfold decimal, NilZero.string_of_uint. destruct (Nat.to_uint n) eqn:Hn;
    try (rewrite <- Hn; apply js_digits).
  intros [->|[]%elem_of_nil]%elem_of_cons. by vm_compute.
Qed.

Lemma js_inj (s t : string) : js s = js t → s = t.
Proof.
  unfold js. intros H.
  rewrite <- (String.string_of_list_ascii_of_string s),
          <- (String.string_of_list_ascii_of_string t). f_equal.
  revert H. generalize (String.list_ascii_of_string s) (String.list_ascii_of_string t).
  induction l as [|a l IH]; intros [|b l']; simpl; try done.
  intros [= Hab Hl]. f_equal; [|by apply IH].
  by rewrite <- (Ascii.ascii_N_embedding a), <- (Ascii.ascii_N_embedding b), Hab.
Qed.

Lemma decimal_inj (n m : nat) : decimal n = decimal m → n = m.
Proof.
  unfold decimal. intros H%js_inj.
  apply DecimalNat.Unsigned.to_uint_inj.
  assert (∀ k, NilZero.uint_of_string (NilZero.string_of_uint (Nat.to_uint k))
               = Some (Nat.to_uint k)) as Husu.
  { intros k. apply NilZero.usu. destruct k; [done|].
    intros Hnil. pose proof (DecimalNat.Unsigned.of_to (S k)) as Hk.
    rewrite Hnil in Hk. done. }
  pose proof (Husu n) as Hn. rewrite H, Husu in Hn. congruence.
Qed.

Lemma split_at_unique {A} (x : A) (l1 l2 r1 r2 : list A) :
  x ∉ l1 → x ∉ l2 → l1 ++ x :: r1 = l2 ++ x :: r2 → l1 = l2.
Proof.
  revert l2; induction l1 as [|a l1 IH]; intros [|b l2] H1 H2; simpl; try done.
  - intros [= -> _]. exfalso. apply H2. by left.
  - intros [= -> _]. exfalso. apply H1. by left.
  - intros [= -> Heq]. f_equal. apply IH; [| |done].
    + intros ?. apply H1. by right.
    + intros ?. apply H2. by right.
Qed.

Lemma questionId_inj (i j : nat) (u u' : jsstring) :
  questionId i u = questionId j u' → i = j.
Proof.
  unfold questionId. intros H%app_inv_head. apply decimal_inj.
  change (js "-" ++ u) with (45%N :: u) in H. change (js "-" ++ u') with (45%N :: u') in H.
  eapply split_at_unique; [| |exact H]; intros Hd%decimal_digits; lia.
Qed.

Lemma map_indexed_lookup {A B} (f : A → nat → Gen B) arr idx rs ys rs' :
  map_indexed f idx arr rs = Some (ys, rs') →
  ∀ n y, ys !! n = Some y →
         ∃ x rs1 rs2, arr !! n = Some x ∧ f x (idx + n) rs1 = Some (y, rs2).
Proof.
  revert idx rs ys rs'; induction arr as [|x arr IH]; intros idx rs ys rs'; simpl.
  - intros [<- _]%ret_Some n y Hn. by rewrite lookup_nil in Hn.
  - intros (y0 & rs1 & Hy & (ys' & rs2 & Hys & [<- _]%ret_Some)%bind_Some)%bind_Some n y.
    destruct n as [|n]; simpl.
    + intros [= <-]. exists x, rs, rs1. by rewrite Nat.add_0_r.
    + intros Hn. destruct (IH _ _ _ _ Hys n y Hn) as (x' & ra & rb & Hx' & Hf).
      exists x', ra, rb. split; [done|]. by replace (idx + S n) with (idx + 1 + n) by lia.
Qed.

Lemma for_loop_invariant_indexed {S} (I : nat → S → Prop) (body : nat → S → Gen S) :
  (∀ i acc rs acc' rs', I i acc → body i acc rs = Some (acc', rs') → I (i + 1) acc') →
  ∀ count i acc rs res rs',
    I i acc → for_loop count i body acc rs = Some (res, rs') → I (i + count) res.
Proof.
  intros Hbody count; induction count as [|count IH]; intros i acc rs res rs' Hacc; simpl.
  - intros [<- _]%ret_Some. by rewrite Nat.add_0_r.
  - intros (acc' & rs1 & Hb & Hrest)%bind_Some.
    replace (i + Datatypes.S count) with (i + 1 + count) by lia. eauto.
Qed.

Lemma NoDup_questionIds {Q} (id : Q → jsstring) (qs : list Q) :
  (∀ n q, qs !! n = Some q → ∃ u, id q = questionId n u) → NoDup (id <$> qs).
Proof.
  intros Hid. apply NoDup_alt. intros i j x.
  rewrite !list_lookup_fmap.
  destruct (qs !! i) as [qi|] eqn:Hi; [|done]. destruct (qs !! j) as [qj|] eqn:Hj; [|done].
  simpl. intros [= <-] [= Hji].
  destruct (Hid _ _ Hi) as [ui Hui]. destruct (Hid _ _ Hj) as [uj Huj].
  rewrite Hui, Huj in Hji. symmetry. by eapply questionId_inj.
Qed.

Lemma QuizMode_makeQuestion_id allMeanings card idx rs q rs' :
  QuizMode.makeQuestion allMeanings card idx rs = Some (q, rs') →
  ∃ u, QuizMode.id q = questionId idx u.
Proof.
  unfold QuizMode.makeQuestion.
  intros (ds & rs1 & _ & (opts & rs2 & _ & (uuid & rs3 & _ & [<- _]%ret_Some)
    %bind_Some)%bind_Some)%bind_Some. by exists uuid.
Qed.

Lemma TestMode_generateQuestion_id section allMeanings allWords i rs q rs' :
  TestMode.generateQuestion section allMeanings allWords i rs = Some (q, rs') →
  ∃ u, TestMode.id q = questionId i u.
Proof.
  unfold TestMode.generateQuestion.
  intros (r & rs1 & _ & (rand & rs2 & _ & Hq)%bind_Some)%bind_Some.
  destruct (Types.cards section !! _) as [card|]; [|done].
  destruct (TestMode.questionType rand).
  - apply bind_Some in Hq as (ds & rs3 & _ & (opts & rs4 & _
      & (uuid & rs5 & _ & [<- _]%ret_Some)%bind_Some)%bind_Some). by exists uuid.
  - apply bind_Some in Hq as (ds & rs3 & _ & (opts & rs4 & _
      & (uuid & rs5 & _ & [<- _]%ret_Some)%bind_Some)%bind_Some). by exists uuid.
  - apply bind_Some in Hq as (uuid & rs3 & _ & [<- _]%ret_Some). by exists uuid.
Qed.

(** X3: the question ids of a generated quiz and of a generated mixed test
    are pairwise distinct, whatever [crypto.randomUUID] returns and even
    when the mixed test draws the same card several times: the position
    written into the id tells the questions apart. *)
Theorem generated_ids_distinct :
  (∀ section rs qs rs',
      QuizMode.generate section rs = Some (qs, rs') → NoDup (QuizMode.id <$> qs))
  ∧ (∀ section rs qs rs',
        TestMode.generate section rs = Some (qs, rs') → NoDup (TestMode.id <$> qs)).
Proof.
  split.
  - intros section rs qs rs'. unfold QuizMode.generate.
    intros (qs0 & rs1 & Hmap & Hsort%sort_random_Some)%bind_Some.
    rewrite Hsort. apply NoDup_questionIds. intros n q Hn.
    destruct (map_indexed_lookup _ _ _ _ _ _ Hmap n q Hn) as (c & ra & rb & _ & Hq).
    by apply QuizMode_makeQuestion_id in Hq.
  - intros section rs qs rs'. unfold TestMode.generate.
    intros (qs0 & rs1 & Hloop & Hsort%sort_random_Some)%bind_Some.
    rewrite Hsort. apply NoDup_questionIds.
    eapply (for_loop_invariant_indexed
              (λ i acc, length acc = i
                        ∧ ∀ n q, acc !! n = Some q → ∃ u, TestMode.id q = questionId n u))
      in Hloop as [_ Hids]; [done| |done].
    intros i acc rsa acc' rsb [Hlen Hacc] (q & rsc & Hq & [<- _]%ret_Some)%bind_Some.
    split; [rewrite length_app; simpl; lia|].
    intros n q' Hn. apply lookup_app_Some in Hn as [Hn|[Hge Hn]]; [by apply Hacc|].
    apply list_lookup_singleton_Some in Hn as [Hn0 <-].
    replace n with i by lia. by eapply TestMode_generateQuestion_id.
Qed.

Lemma generated_ids_distinct_witness :
  NoDup (QuizMode.id <$> [QuizMode.mkQuestion (js "q-0-") (card_of "a" "x")
                                              [js "y"; js "y"; js "y"; js "x"];
                          QuizMode.mkQuestion (js "q-1-") (card_of "b" "y")
                                              [js "x"; js "Definition 2"; js "Definition 3"; js "y"];
                          QuizMode.mkQuestion (js "q-2-") (card_of "c" "y")
                                              [js "x"; js "Definition 2"; js "Definition 3"; js "y"];
                          QuizMode.mkQuestion (js "q-3-") (card_of "d" "y")
                                              [js "x"; js "Definition 2"; js "Definition 3"; js "y"]]).
Proof.
  exact (proj1 generated_ids_distinct section_shared_meaning quiet _ quiet
           ltac:(by vm_compute)).
Defined.

(** ** The quiz *)

Lemma map_indexed_total {A B} (f : A → nat → Gen B) :
  (∀ x i rs, ∃ y rs', f x i rs = Some (y, rs')) →
  ∀ arr idx rs, ∃ ys rs', map_indexed f idx arr rs = Some (ys, rs').
Proof.
  intros Hf arr; induction arr as [|x arr IH]; intros idx rs; simpl.
  - by eexists _, _.
  - destruct (Hf x idx rs) as (y & rs1 & Hy).
    destruct (IH (idx + 1) rs1) as (ys & rs2 & Hys).
    exists (y :: ys), rs2. unfold bind. by rewrite Hy, Hys.
Qed.

(** X4: quiz mode builds, without throwing, exactly one question per card:
    the cards of the generated questions are a rearrangement of the cards
    of the section (so an empty section gives no question), and each
    question is answered by the meaning of its own card, which is among its
    options. *)
Theorem QuizMode_one_question_per_card (section : Section_) (rs : RandomSource) :
  ∃ qs rs',
    QuizMode.generate section rs = Some (qs, rs')
    ∧ QuizMode.card <$> qs ≡ₚ Types.cards section
    ∧ length qs = length (Types.cards section)
    ∧ ∀ q, q ∈ qs → meaning (QuizMode.card q) ∈ QuizMode.options q.
Proof.
  destruct (map_indexed_total (QuizMode.makeQuestion (meaning <$> Types.cards section)))
    with (arr := Types.cards section) (idx := 0) (rs := rs) as (qs0 & rs1 & Hmap).
  { intros c i rs0. unfold QuizMode.makeQuestion, sampleDistractors, bind, sort_random,
      randomUUID8, ret. by eexists _, _. }
  destruct (sort_random_spec qs0 rs1) as (qs & rs' & Hsort & Hperm).
  assert (QuizMode.generate section rs = Some (qs, rs')) as Hgen.
  { unfold QuizMode.generate, bind. by rewrite Hmap. }
  assert (QuizMode.card <$> qs0 = Types.cards section) as Hcards.
  { eapply map_indexed_Some in Hmap; [|apply QuizMode_makeQuestion_Some].
    clear -Hmap. induction Hmap as [|c q cs qs [Hc _] _ IH]; [done|].
    rewrite fmap_cons. by rewrite Hc, IH. }
  exists qs, rs'. split; [done|]. split; [by rewrite Hperm, Hcards|]. split.
  - by rewrite Hperm, <- Hcards, length_fmap.
  - intros q Hq. destruct (QuizMode_generate_Some _ _ _ _ _ Hgen Hq) as [_ Hb].
    by apply built_options_invariant in Hb as (_ & Hin & _).
Qed.

(** X5: every question of a generated mixed test refers to a card of the
    section; a word→meaning question is answered by the meaning of its card
    and a meaning→word or free-text question by its vocabulary; the
    multiple-choice shapes carry options built from the matching pool and
    a free-text question carries none. *)
Theorem TestMode_questions_built section rs qs rs' q :
  TestMode.generate section rs = Some (qs, rs') →
  q ∈ qs →
  TestMode_question_built section q.
Proof.
  intros Hgen%TestMode_generate_Some Hq. by apply (proj1 (Forall_forall _ _) Hgen).
Qed.

Lemma TestMode_questions_built_witness :
  TestMode_question_built section_blank_vocab
    (TestMode.mkQuestion (js "q-0-aaaaaaaa") TestMode.response (card_of "" "m") None (js "")).
Proof.
  exact (TestMode_questions_built section_blank_vocab all_response _ _ _
           ltac:(by vm_compute) ltac:(by left)).
Defined.

Lemma QuizMode_fold_score (userAnswers : gmap jsstring jsstring) qs score :
  fold_left (fun score q => if QuizMode.isCorrect userAnswers q then score + 1 else score)
            qs score
  = score + length (filter (λ q, QuizMode.isCorrect userAnswers q = true) qs).
Proof.
  revert score; induction qs as [|q qs IH]; intros score; simpl; [lia|].
  rewrite IH. destruct (QuizMode.isCorrect userAnswers q) eqn:Hq.
  - rewrite filter_cons_True by done. simpl; lia.
  - rewrite filter_cons_False; [lia|]. by rewrite Hq.
Qed.

(** X6: the score of a quiz is the number of questions whose stored answer
    is the meaning of their card; it never exceeds the number of questions,
    and together with the number of the other questions it makes up that
    number. Without any stored answer the score is 0. *)
Theorem QuizMode_score_bounds (s : QuizMode.State) :
  QuizMode.calculateScore s
  = length (filter (λ q, QuizMode.isCorrect (QuizMode.userAnswers s) q = true)
                   (QuizMode.questions s))
  ∧ QuizMode.calculateScore s ≤ length (QuizMode.questions s)
  ∧ QuizMode.calculateScore s
    + length (filter (λ q, ¬ QuizMode.isCorrect (QuizMode.userAnswers s) q = true)
                     (QuizMode.questions s))
    = length (QuizMode.questions s)
  ∧ QuizMode.calculateScore (QuizMode.mkState (QuizMode.questions s) ∅ (QuizMode.isDone s)) = 0.
Proof.
  unfold QuizMode.calculateScore. rewrite !QuizMode_fold_score. simpl.
  split; [done|]. split; [apply length_filter|]. split.
  - by rewrite <- length_app, filter_app_complement.
  - induction (QuizMode.questions s) as [|q qs IH]; [done|].
    rewrite filter_cons_False; [done|].
    unfold QuizMode.isCorrect. by rewrite lookup_empty.
Qed.

(** X7: the score of the mixed test agrees with the marking of the review:
    it is the number of questions that [isAnswerCorrect] accepts, it never
    exceeds the number of questions, and with the rejected questions it
    makes up that number. *)
Theorem TestMode_score_bounds (toLowerCase : jsstring → jsstring) (s : TestMode.State) :
  TestMode.calculateScore toLowerCase s
  = length (filter (λ q, TestMode.isAnswerCorrect toLowerCase (TestMode.userAnswers s) q = true)
                   (TestMode.questions s))
  ∧ TestMode.calculateScore toLowerCase s ≤ length (TestMode.questions s)
  ∧ TestMode.calculateScore toLowerCase s
    + length (filter (λ q, ¬ TestMode.isAnswerCorrect toLowerCase (TestMode.userAnswers s) q = true)
                     (TestMode.questions s))
    = length (TestMode.questions s).
Proof.
  split; [apply TestMode_calculateScore_count|]. split.
  - rewrite TestMode_calculateScore_count. apply length_filter.
  - apply TestMode_score_missed_total.
Qed.

Lemma QuizMode_done_fixed (e : QuizMode.Event) (s : QuizMode.State) :
  QuizMode.isDone s = true → QuizMode.dispatch e s = s.
Proof.
  intros Hd. destruct e; simpl.
  - unfold QuizMode.handleSelect. by rewrite Hd.
  - unfold QuizMode.handleEndTest. destruct s; simpl in *. by rewrite Hd.
Qed.

Lemma TestMode_done_fixed (e : TestMode.Event) (s : TestMode.State) :
  TestMode.isDone s = true → TestMode.dispatch e s = s.
Proof.
  intros Hd. destruct e; simpl.
  - unfold TestMode.handleSelectMC. by rewrite Hd.
  - unfold TestMode.handleResponseInput. by rewrite Hd.
  - unfold TestMode.handleEndTest. destruct s; simpl in *. by rewrite Hd.
Qed.

(** X8: once the test is ended, no event changes the state of quiz mode or
    of the mixed test: the answers are frozen and the score shown stays
    what it was when the test ended. *)
Theorem ended_test_is_frozen (toLowerCase : jsstring → jsstring) :
  (∀ es s, QuizMode_run es (QuizMode.handleEndTest s) = QuizMode.handleEndTest s
           ∧ QuizMode.calculateScore (QuizMode_run es (QuizMode.handleEndTest s))
             = QuizMode.calculateScore s)
  ∧ (∀ es s, TestMode_run es (TestMode.handleEndTest s) = TestMode.handleEndTest s
             ∧ TestMode.calculateScore toLowerCase (TestMode_run es (TestMode.handleEndTest s))
               = TestMode.calculateScore toLowerCase s).
Proof.
  split.
  - intros es s.
    assert (QuizMode_run es (QuizMode.handleEndTest s) = QuizMode.handleEndTest s) as ->; [|done].
    induction es as [|e es IH]; [done|]. simpl. by rewrite QuizMode_done_fixed.
  - intros es s.
    assert (TestMode_run es (TestMode.handleEndTest s) = TestMode.handleEndTest s) as ->; [|done].
    induction es as [|e es IH]; [done|]. simpl. by rewrite TestMode_done_fixed.
Qed.


Lemma foldl_insert_other {Q} (id ans : Q → jsstring) (l : list Q)
      (m : gmap jsstring jsstring) (k : jsstring) :
  k ∉ id <$> l → foldl (λ m q, <[id q := ans q]> m) m l !! k = m !! k.
Proof.
  revert m; induction l as [|x l IH]; intros m Hk; simpl; [done|].
  rewrite fmap_cons in Hk. apply not_elem_of_cons in Hk as [Hne Hk].
  rewrite IH by done. by rewrite lookup_insert_ne.
Qed.

Lemma foldl_insert_lookup {Q} (id ans : Q → jsstring) (l : list Q)
      (m : gmap jsstring jsstring) (q : Q) :
  NoDup (id <$> l) → q ∈ l → foldl (λ m q, <[id q := ans q]> m) m l !! id q = Some (ans q).
Proof.
  revert m; induction l as [|x l IH]; intros m Hnd Hq; [by apply elem_of_nil in Hq|].
  rewrite fmap_cons in Hnd. apply NoDup_cons in Hnd as [Hx Hnd]. simpl.
  apply elem_of_cons in Hq as [->|Hq]; [|by apply IH].
  rewrite foldl_insert_other by done. apply lookup_insert_eq.
Qed.

Lemma QuizMode_answer_all_answers qs s :
  QuizMode.isDone s = false →
  QuizMode_run (QuizMode_answer_all qs) s
  = QuizMode.mkState (QuizMode.questions s)
      (foldl (λ m q, <[QuizMode.id q := meaning (QuizMode.card q)]> m) (QuizMode.userAnswers s) qs)
      false.
Proof.
  unfold QuizMode_run, QuizMode_answer_all.
  revert s; induction qs as [|q qs IH]; intros s Hd.
  - destruct s; simpl in *. by rewrite Hd.
  - rewrite fmap_cons. cbn [foldl].
    rewrite IH; cbn [QuizMode.dispatch]; unfold QuizMode.handleSelect; by rewrite Hd.
Qed.

Lemma TestMode_answer_all_answers qs s :
  TestMode.isDone s = false →
  TestMode_run (TestMode_answer_all qs) s
  = TestMode.mkState (TestMode.questions s)
      (foldl (λ m q, <[TestMode.id q := TestMode.correctAnswer q]> m) (TestMode.userAnswers s) qs)
      false.
Proof.
  unfold TestMode_run, TestMode_answer_all.
  revert s; induction qs as [|q qs IH]; intros s Hd.
  - destruct s; simpl in *. by rewrite Hd.
  - rewrite fmap_cons. cbn [foldl].
    rewrite IH; destruct (TestMode.type q); cbn [TestMode.dispatch];
      unfold TestMode.handleSelectMC, TestMode.handleResponseInput; by rewrite Hd.
Qed.

Lemma filter_all {A} (P : A → Prop) `{∀ x, Decision (P x)} (l : list A) :
  (∀ x, x ∈ l → P x) → filter P l = l.
Proof.
  induction l as [|x l IH]; intros Hall; [done|].
  rewrite filter_cons_True by (apply Hall; by left).
  rewrite IH; [done|]. intros y Hy. apply Hall. by right.
Qed.

(** X9: a session in which the user picks the correct answer of every
    question scores all the questions. In quiz mode this needs only that
    the question ids are pairwise distinct (as generated ids are); in the
    mixed test it needs in addition that no correct answer is the empty
    string, which the grading guard would reject. *)
Theorem answering_all_scores_all (toLowerCase : jsstring → jsstring) :
  (∀ qs, NoDup (QuizMode.id <$> qs) →
         QuizMode.calculateScore
           (QuizMode_run (QuizMode_answer_all qs) (QuizMode.mkState qs ∅ false))
         = length qs)
  ∧ (∀ qs, NoDup (TestMode.id <$> qs) →
           (∀ q, q ∈ qs → TestMode.correctAnswer q ≠ []) →
           TestMode.calculateScore toLowerCase
             (TestMode_run (TestMode_answer_all qs) (TestMode.mkState qs ∅ false))
           = length qs).
Proof.
  split.
  - intros qs Hnd. rewrite QuizMode_answer_all_answers by done.
    unfold QuizMode.calculateScore. rewrite QuizMode_fold_score. simpl.
    rewrite filter_all; [done|]. intros q Hq. unfold QuizMode.isCorrect.
    apply bool_decide_eq_true.
    by apply (foldl_insert_lookup QuizMode.id (λ q, meaning (QuizMode.card q))).
  - intros qs Hnd Hne. rewrite TestMode_answer_all_answers by done.
    rewrite TestMode_calculateScore_count. simpl.
    rewrite filter_all; [done|]. intros q Hq. unfold TestMode.isAnswerCorrect.
    rewrite (foldl_insert_lookup TestMode.id TestMode.correctAnswer) by done.
    specialize (Hne q Hq). destruct (TestMode.correctAnswer q) as [|c a] eqn:Hc; [done|].
    simpl. destruct (TestMode.type q); by apply str_eqb_eq.
Qed.

Lemma answering_all_scores_all_witness :
  QuizMode.calculateScore
    (QuizMode_run
       (QuizMode_answer_all [QuizMode.mkQuestion (js "q-0-") (card_of "a" "x")
                                                 [js "y"; js "x"; js "z"; js "w"];
                             QuizMode.mkQuestion (js "q-1-") (card_of "b" "y")
                                                 [js "y"; js "x"; js "z"; js "w"]])
       (QuizMode.mkState [QuizMode.mkQuestion (js "q-0-") (card_of "a" "x")
                                              [js "y"; js "x"; js "z"; js "w"];
                          QuizMode.mkQuestion (js "q-1-") (card_of "b" "y")
                                              [js "y"; js "x"; js "z"; js "w"]] ∅ false))
  = 2.
Proof.
  apply (proj1 (answering_all_scores_all asciiLowerCase)).
  apply (bool_decide_unpack _). by vm_compute.
Defined.


(** ** Flashcard and response sessions *)

Lemma flashcard_dispatch_ok section e s rs :
  flashcard_deck_ok section s →
  ∃ s' rs', FlashcardMode.dispatch e s rs = Some (s', rs') ∧ flashcard_deck_ok section s'.
Proof.
  intros (Hidx & Hsec & Hforg). unfold FlashcardMode.dispatch.
  destruct (FlashcardMode.enabled e s) eqn:Hen; [|by exists s, rs].
  unfold FlashcardMode.enabled in Hen.
  destruct (FlashcardMode.cards s) as [|c0 cs] eqn:Hcards; [done|].
  rewrite <- Hcards in *. destruct Hidx as [Hidx|Hnil]; [|congruence].
  destruct e as [b| |].
  - unfold FlashcardMode.handleResponse.
    destruct (lookup_lt_is_Some_2 _ _ Hidx) as [current Hcur]. rewrite Hcur.
    eexists _, _. split; [reflexivity|].
    assert (current ∈ FlashcardMode.cards s) as Hin by (by eapply list_elem_of_lookup_2).
    assert ((if negb b then FlashcardMode.forgotten s ++ [current] else FlashcardMode.forgotten s)
            ⊆ FlashcardMode.cards s) as Hf'.
    { destruct b; simpl; [done|]. intros x [Hx|Hx]%elem_of_app; [by apply Hforg|].
      by apply list_elem_of_singleton in Hx as ->. }
    destruct (Nat.ltb_spec (FlashcardMode.index s) (length (FlashcardMode.cards s) - 1));
      (split; [left; simpl; lia|by split]).
  - eexists _, _. split; [reflexivity|]. unfold FlashcardMode.handleBack.
    destruct (0 <? FlashcardMode.index s); [|by split; [left|]].
    split; [left; simpl; lia|by split].
  - apply andb_true_iff in Hen as [_ Hne%negb_true_iff%bool_decide_eq_false].
    eexists _, _. split; [reflexivity|]. unfold flashcard_deck_ok; simpl.
    split; [|split].
    + left. rewrite reorder_length. destruct (FlashcardMode.forgotten s); [done|simpl; lia].
    + intros x Hx. rewrite reorder_perm in Hx. by apply Hsec, Hforg.
    + by intros x Hx%elem_of_nil.
Qed.

(** With the index update applied by the handler, no session reads past
    its deck. *)
Lemma flashcard_run_ok (section : Section_) (es : list FlashcardMode.Event)
      (s0 : FlashcardMode.State) (rs0 : RandomSource) :
  flashcard_deck_ok section s0 →
  ∃ s rs', FlashcardMode.run es s0 rs0 = Some (s, rs') ∧ flashcard_deck_ok section s.
Proof.
  revert s0 rs0. induction es as [|e es IH]; intros s0 rs0 H0; simpl.
  - by exists s0, rs0.
  - destruct (flashcard_dispatch_ok section e s0 rs0 H0) as (s1 & rs1 & Hd & H1).
    unfold bind. rewrite Hd. by apply IH.
Qed.

Lemma flashcard_start_ok (section : Section_) (rs : RandomSource) :
  ∃ s0 rs0, FlashcardMode.start section rs = Some (s0, rs0) ∧ flashcard_deck_ok section s0.
Proof.
  unfold FlashcardMode.start, bind, sort_random, ret. eexists _, _. split; [reflexivity|].
  unfold flashcard_deck_ok; simpl. split; [|split].
  - destruct (reorder _ _); [by right|left; simpl; lia].
  - intros x Hx. by rewrite reorder_perm in Hx.
  - by intros x Hx%elem_of_nil.
Qed.

(** A click followed by its timer is the handler of [FlashcardMode], which
    applies the two together. *)
Lemma flashcard_patient_step section e s rs s' rs' :
  flashcard_deck_ok section s →
  FlashcardMode.dispatch e s rs = Some (s', rs') →
  ∃ s1 rs1,
    FlashcardModeTimed.dispatch (FlashcardModeTimed.User e)
      (FlashcardModeTimed.mkState s 0) rs = Some (s1, rs1)
    ∧ FlashcardModeTimed.dispatch FlashcardModeTimed.TimerFires s1 rs1
      = Some (FlashcardModeTimed.mkState s' 0, rs').
Proof.
  intros (Hidx & Hsec & Hforg).
  unfold FlashcardMode.dispatch, FlashcardModeTimed.dispatch, FlashcardModeTimed.handle,
    FlashcardModeTimed.renders, bind, ret; simpl.
  destruct (FlashcardMode.enabled e s) eqn:Hen.
  - unfold FlashcardMode.enabled in Hen.
    destruct (FlashcardMode.cards s) as [|c0 cs] eqn:Hcards; [done|].
    rewrite <- Hcards in *. destruct Hidx as [Hidx|Hnil]; [|congruence].
    destruct e as [b| |].
    + unfold FlashcardMode.handleResponse, FlashcardModeTimed.handleResponse; simpl.
      destruct (lookup_lt_is_Some_2 _ _ Hidx) as [current Hcur]. rewrite Hcur.
      destruct (Nat.ltb_spec (FlashcardMode.index s) (length (FlashcardMode.cards s) - 1))
        as [Hlt|Hge]; simpl; rewrite Hcards; rewrite <- Hcards; intros [= <- <-].
      * assert ((FlashcardMode.index s <? length (FlashcardMode.cards s)) = true) as ->
          by (apply Nat.ltb_lt; lia).
        rewrite orb_true_r. eexists _, _. split; [reflexivity|]. simpl.
        rewrite Hcards; rewrite <- Hcards.
        assert ((FlashcardMode.index s + 1 <? length (FlashcardMode.cards s)) = true) as ->
          by (apply Nat.ltb_lt; lia).
        by rewrite orb_true_r.
      * eexists _, _. split; [reflexivity|]. simpl. by rewrite Hcards.
    + intros [= <- <-]. unfold FlashcardMode.handleBack.
      apply andb_true_iff in Hen as [Hnd%negb_true_iff Hpos]. rewrite Hpos; simpl.
      rewrite Hcards; rewrite <- Hcards.
      assert ((FlashcardMode.index s - 1 <? length (FlashcardMode.cards s)) = true) as ->
        by (apply Nat.ltb_lt; lia).
      rewrite orb_true_r. eexists _, _. split; [reflexivity|]. simpl.
      rewrite Hcards; rewrite <- Hcards.
      assert ((FlashcardMode.index s - 1 <? length (FlashcardMode.cards s)) = true) as ->
        by (apply Nat.ltb_lt; lia).
      by rewrite orb_true_r.
    + apply andb_true_iff in Hen as [_ Hne%negb_true_iff%bool_decide_eq_false].
      unfold FlashcardMode.restartWithForgotten, sort_random, bind, ret; simpl.
      intros [= <- <-].
      assert (reorder (default [] (head (orders rs))) (FlashcardMode.forgotten s) ≠ []) as Hre.
      { intros Hnil. apply Hne. apply Permutation_nil_r. by rewrite <- Hnil, reorder_perm. }
      destruct (reorder (default [] (head (orders rs))) (FlashcardMode.forgotten s))
        as [|c1 cs1] eqn:Hdeck; [done|].
      eexists _, _. split; [reflexivity|]. done.
  - intros [= <- <-].
    assert ((match FlashcardMode.cards s with
             | [] => true
             | _ :: _ => FlashcardMode.isDone s
                         || (FlashcardMode.index s <? length (FlashcardMode.cards s))
             end) = true) as Hrender.
    { destruct Hidx as [Hidx%Nat.ltb_lt|Hnil]; [|by rewrite Hnil].
      rewrite Hidx, orb_true_r. by destruct (FlashcardMode.cards s). }
    simpl. rewrite Hrender. eexists _, _. split; [reflexivity|]. simpl. by rewrite Hrender.
Qed.

(** The session of a patient user is the session of [FlashcardMode]. *)
Lemma flashcard_patient_run section es s rs s' rs' :
  flashcard_deck_ok section s →
  FlashcardMode.run es s rs = Some (s', rs') →
  FlashcardModeTimed.run (patient es) (FlashcardModeTimed.mkState s 0) rs
  = Some (FlashcardModeTimed.mkState s' 0, rs').
Proof.
  revert s rs. induction es as [|e es IH]; intros s rs Hok; simpl.
  - by intros [= <- <-].
  - intros (s1 & rs1 & Hd & Hrun)%bind_Some.
    destruct (flashcard_patient_step _ _ _ _ _ _ Hok Hd) as (t1 & rt1 & Hclick & Htimer).
    destruct (flashcard_dispatch_ok section e s rs Hok) as (s1' & rs1' & Hd' & Hok1).
    rewrite Hd in Hd'. injection Hd' as <- <-.
    unfold bind at 1. rewrite Hclick. unfold bind at 1. rewrite Htimer. by apply IH.
Qed.

Lemma flashcard_patient_session section es rs :
  ∃ s rs',
    (let* s0 := FlashcardMode.start section in FlashcardMode.run es s0) rs = Some (s, rs')
    ∧ (let* s0 := FlashcardModeTimed.start section in
       FlashcardModeTimed.run (patient es) s0) rs
      = Some (FlashcardModeTimed.mkState s 0, rs')
    ∧ flashcard_deck_ok section s.
Proof.
  destruct (flashcard_start_ok section rs) as (s0 & rs0 & Hstart & H0).
  destruct (flashcard_run_ok section es s0 rs0 H0) as (s & rs' & Hrun & Hok).
  exists s, rs'. split; [|split; [|done]].
  - unfold bind. by rewrite Hstart.
  - unfold FlashcardModeTimed.start, bind. rewrite Hstart. simpl.
    by apply (flashcard_patient_run section).
Qed.

(** X10: a flashcard session in which every click waits for the card change
    of the click before it (the 150 ms timer of [handleResponse]) never
    reads past its deck. For every section, random source and sequence of
    user actions (answers, Back, retry), no handler and no render throws,
    no timer is left pending, the index stays within the deck, and the deck
    and the review list hold cards of the section only, across retries as
    well. *)
Theorem flashcard_session_in_order (section : Section_) (es : list FlashcardMode.Event)
        (rs : RandomSource) :
  ∃ s rs',
    (let* s0 := FlashcardModeTimed.start section in
     FlashcardModeTimed.run (patient es) s0) rs = Some (s, rs')
    ∧ FlashcardModeTimed.timers s = 0
    ∧ flashcard_deck_ok section (FlashcardModeTimed.view s).
Proof.
  destruct (flashcard_patient_session section es rs) as (s & rs' & _ & Hrun & Hok).
  by exists (FlashcardModeTimed.mkState s 0), rs'.
Qed.

(** X11: in a flashcard session without Back in which every click waits for
    the card change of the click before it, once the session is done every
    card of the deck has been tallied exactly once:
    mastered + to-review = number of cards. *)
Theorem flashcard_session_tally es section rs s rs' :
  Forall (λ e, e ≠ FlashcardMode.Back) es →
  (let* s0 := FlashcardModeTimed.start section in
   FlashcardModeTimed.run (patient es) s0) rs = Some (s, rs') →
  FlashcardMode.isDone (FlashcardModeTimed.view s) = true →
  FlashcardMode.remembered (FlashcardModeTimed.view s)
  + length (FlashcardMode.forgotten (FlashcardModeTimed.view s))
  = length (FlashcardMode.cards (FlashcardModeTimed.view s)).
Proof.
  intros Hes Hrun.
  destruct (flashcard_patient_session section es rs) as (s1 & rs1 & Hatomic & Htimed & _).
  rewrite Htimed in Hrun. injection Hrun as <- <-. simpl.
  by apply (flashcard_tally_without_back es section rs s1 rs1).
Qed.

Lemma flashcard_session_tally_witness :
  FlashcardMode.remembered
    (FlashcardMode.mkState [card_of "a" "x"; card_of "b" "y"] 1 false [card_of "b" "y"] 1 true)
  + length (FlashcardMode.forgotten
      (FlashcardMode.mkState [card_of "a" "x"; card_of "b" "y"] 1 false [card_of "b" "y"] 1 true))
  = length (FlashcardMode.cards
      (FlashcardMode.mkState [card_of "a" "x"; card_of "b" "y"] 1 false [card_of "b" "y"] 1 true)).
Proof.
  apply (flashcard_session_tally
           [FlashcardMode.Respond true; FlashcardMode.Respond false] section_two quiet
           (FlashcardModeTimed.mkState
              (FlashcardMode.mkState [card_of "a" "x"; card_of "b" "y"] 1 false
                                     [card_of "b" "y"] 1 true) 0)
           quiet).
  - repeat constructor; done.
  - by vm_compute.
  - reflexivity.
Defined.

(** Clicks that do not wait. On a deck of two cards a second Got it within
    the 150 ms of the first is tallied for the same card; when both timers
    have fired the index is 2 and the render throws. With a third click
    between the two timers the session ends with 3 cards mastered out of 2.
    The run that goes back and answers the first card again, with the
    timers it waits for, ends with 3 cards mastered as well. *)
Example flashcard_hasty_clicks :
  (let* s0 := FlashcardModeTimed.start section_two in
   FlashcardModeTimed.run
     [FlashcardModeTimed.User (FlashcardMode.Respond true);
      FlashcardModeTimed.User (FlashcardMode.Respond true);
      FlashcardModeTimed.TimerFires; FlashcardModeTimed.TimerFires] s0) quiet = None
  ∧ (let* s0 := FlashcardModeTimed.start section_two in
     FlashcardModeTimed.run
       [FlashcardModeTimed.User (FlashcardMode.Respond true);
        FlashcardModeTimed.User (FlashcardMode.Respond true);
        FlashcardModeTimed.TimerFires;
        FlashcardModeTimed.User (FlashcardMode.Respond true);
        FlashcardModeTimed.TimerFires] s0) quiet
    = Some (FlashcardModeTimed.mkState
              (FlashcardMode.mkState [card_of "a" "x"; card_of "b" "y"] 2 false [] 3 true) 0,
            quiet)
  ∧ (let* s0 := FlashcardModeTimed.start section_two in
     FlashcardModeTimed.run
       [FlashcardModeTimed.User (FlashcardMode.Respond true);
        FlashcardModeTimed.TimerFires;
        FlashcardModeTimed.User FlashcardMode.Back;
        FlashcardModeTimed.User (FlashcardMode.Respond true);
        FlashcardModeTimed.TimerFires;
        FlashcardModeTimed.User (FlashcardMode.Respond true)] s0) quiet
    = Some (FlashcardModeTimed.mkState
              (FlashcardMode.mkState [card_of "a" "x"; card_of "b" "y"] 1 false [] 3 true) 0,
            quiet).
Proof. by vm_compute. Qed.

Lemma response_dispatch_ok toLowerCase section e s rs :
  response_deck_ok section s →
  ∃ s' rs', ResponseMode.dispatch toLowerCase e s rs = Some (s', rs')
            ∧ response_deck_ok section s'.
Proof.
  intros (Hidx & Hsec & Hinc). unfold ResponseMode.dispatch.
  destruct (ResponseMode.enabled e s) eqn:Hen; [|by exists s, rs].
  unfold ResponseMode.enabled in Hen.
  destruct (ResponseMode.cards s) as [|c0 cs] eqn:Hcards; [done|].
  rewrite <- Hcards in *. destruct Hidx as [Hidx|Hnil]; [|congruence].
  destruct e as [v| | |].
  - eexists _, _. split; [reflexivity|]. by split; [left|].
  - unfold ResponseMode.checkAnswer.
    destruct (lookup_lt_is_Some_2 _ _ Hidx) as [current Hcur]. rewrite Hcur.
    eexists _, _. split; [reflexivity|].
    assert (current ∈ ResponseMode.cards s) as Hin by (by eapply list_elem_of_lookup_2).
    split; [by left|]. split; [done|]. simpl.
    destruct (str_eqb _ _); simpl; [done|].
    intros x [Hx|Hx]%elem_of_app; [by apply Hinc|].
    by apply list_elem_of_singleton in Hx as ->.
  - eexists _, _. split; [reflexivity|]. unfold ResponseMode.handleNext.
    destruct (Nat.ltb_spec (ResponseMode.index s) (length (ResponseMode.cards s) - 1));
      (split; [left; simpl; lia|by split]).
  - apply andb_true_iff in Hen as [_ Hne%negb_true_iff%bool_decide_eq_false].
    eexists _, _. split; [reflexivity|]. unfold response_deck_ok; simpl.
    split; [|split].
    + left. rewrite reorder_length. destruct (ResponseMode.incorrect s); [done|simpl; lia].
    + intros x Hx. rewrite reorder_perm in Hx. by apply Hsec, Hinc.
    + by intros x Hx%elem_of_nil.
Qed.

(** X12: a response session never reads past its deck. For every section,
    random source and sequence of user actions the interface offers
    (typing, checking, Next, retry), no handler throws, the index stays
    within the deck, and the deck and the missed list hold cards of the
    section only; once the session is done, correct + missed = number of
    cards. *)
Theorem response_session_in_order (toLowerCase : jsstring → jsstring) (section : Section_)
        (es : list ResponseMode.Event) (rs : RandomSource) :
  ∃ s rs',
    (let* s0 := ResponseMode.start section in ResponseMode.run toLowerCase es s0) rs
    = Some (s, rs')
    ∧ response_deck_ok section s
    ∧ (if ResponseMode.isDone s
       then ResponseMode.correct s + length (ResponseMode.incorrect s)
            = length (ResponseMode.cards s)
       else True).
Proof.
  assert (∃ s rs',
             (let* s0 := ResponseMode.start section in ResponseMode.run toLowerCase es s0) rs
             = Some (s, rs') ∧ response_deck_ok section s) as (s & rs' & Hrun & Hok).
  { unfold bind at 1. unfold ResponseMode.start, bind, sort_random, ret.
    set (s0 := ResponseMode.mkState _ 0 [] false false [] 0 false).
    set (rs0 := mkRandomSource _ _ _).
    assert (response_deck_ok section s0) as H0.
    { unfold response_deck_ok, s0; simpl. split; [|split].
      - destruct (reorder _ _); [by right|left; simpl; lia].
      - intros x Hx. by rewrite reorder_perm in Hx.
      - by intros x Hx%elem_of_nil. }
    clearbody s0 rs0. revert s0 rs0 H0.
    induction es as [|e es IH]; intros s0 rs0 H0; simpl.
    - by exists s0, rs0.
    - destruct (response_dispatch_ok toLowerCase section e s0 rs0 H0) as (s1 & rs1 & Hd & H1).
      unfold bind. rewrite Hd. by apply IH. }
  exists s, rs'. split; [done|]. split; [done|].
  destruct (ResponseMode.isDone s) eqn:Hdone; [|done].
  by eapply response_tally_done.
Qed.

(** ** The section editor *)

Lemma filter_none {A} (P : A → Prop) `{∀ x, Decision (P x)} (l : list A) :
  (∀ x, x ∈ l → ¬ P x) → filter P l = [].
Proof.
  induction l as [|x l IH]; intros Hall; [done|].
  rewrite filter_cons_False by (apply Hall; by left).
  apply IH. intros y Hy. apply Hall. by right.
Qed.

Lemma truthy_nonempty (s : jsstring) : truthy s = true ↔ s ≠ [].
Proof. by destruct s. Qed.

Lemma complete_spec (c : Card) :
  SectionEditor.complete c = true ↔ trim (vocab c) ≠ [] ∧ trim (meaning c) ≠ [].
Proof. unfold SectionEditor.complete. by rewrite andb_true_iff, !truthy_nonempty. Qed.

(** X13: [handleSave] passes a section on only when the title is not blank
    and at least one card is complete. The saved section carries the title
    and description as typed and exactly the complete cards, in their
    order: every saved card has a non-blank vocabulary and a non-blank
    meaning, and no saved section is without cards. A blank title gives
    the title alert, whatever the cards are. *)
Theorem SectionEditor_save_validates (uuid : jsstring) (now : nat) (s : SectionEditor.State) :
  (SectionEditor.handleSave uuid now s = SectionEditor.AlertNoTitle
   ↔ trim (SectionEditor.title s) = [])
  ∧ (SectionEditor.handleSave uuid now s = SectionEditor.AlertNoCard
     ↔ trim (SectionEditor.title s) ≠ []
       ∧ ∀ c, c ∈ SectionEditor.cards s → trim (vocab c) = [] ∨ trim (meaning c) = [])
  ∧ (∀ saved, SectionEditor.handleSave uuid now s = SectionEditor.OnSave saved →
       trim (Types.title saved) ≠ []
       ∧ Types.title saved = SectionEditor.title s
       ∧ Types.description saved = SectionEditor.desc s
       ∧ Types.cards saved
         = filter (λ c, SectionEditor.complete c = true) (SectionEditor.cards s)
       ∧ Types.cards saved ≠ []
       ∧ ∀ c, c ∈ Types.cards saved →
              c ∈ SectionEditor.cards s ∧ trim (vocab c) ≠ [] ∧ trim (meaning c) ≠ []).
Proof.
  unfold SectionEditor.handleSave.
  destruct (truthy (trim (SectionEditor.title s))) eqn:Ht; simpl.
  - apply truthy_nonempty in Ht.
    set (valid := filter (λ c, SectionEditor.complete c = true) (SectionEditor.cards s)).
    destruct (Nat.eqb_spec (length valid) 0) as [Hz|Hnz].
    + apply length_zero_iff_nil in Hz.
      split; [split; [done|by intros ?]|]. split; [|done].
      split; [|done]. intros _. split; [done|].
      intros c Hc. destruct (decide (trim (vocab c) = [])) as [|Hv]; [by left|].
      destruct (decide (trim (meaning c) = [])) as [|Hm]; [by right|].
      exfalso. assert (c ∈ valid) as Hin.
      { apply list_elem_of_filter. split; [by apply complete_spec|done]. }
      rewrite Hz in Hin. by apply elem_of_nil in Hin.
    + split; [split; [done|by intros ?]|]. split.
      * split; [done|]. intros [_ Hall]. exfalso. apply Hnz.
        apply length_zero_iff_nil. apply filter_none.
        intros c Hc [Hv Hm]%complete_spec. by destruct (Hall c Hc).
      * intros saved [= <-]. simpl. fold valid.
        repeat split; try done.
        -- intros Hnil. by rewrite Hnil in Hnz.
        -- by apply list_elem_of_filter in H as [_ ?].
        -- by apply list_elem_of_filter in H as [[? _]%complete_spec _].
        -- by apply list_elem_of_filter in H as [[_ ?]%complete_spec _].
  - assert (trim (SectionEditor.title s) = []) as Hnil by (by destruct (trim _)).
    split; [done|]. split; [|done]. split; [done|]. by intros [? _].
Qed.

Lemma SectionEditor_save_validates_witness :
  trim (Types.title (mkSection (js "u") (js "Verbs") [] [card_of "run" "courir"] 7)) ≠ []
  ∧ Types.cards (mkSection (js "u") (js "Verbs") [] [card_of "run" "courir"] 7)
    = filter (λ c, SectionEditor.complete c = true) [card_of "run" "courir"; card_of " " "x"].
Proof.
  destruct (SectionEditor_save_validates (js "u") 7
              (SectionEditor.mkState None (js "Verbs") []
                 [card_of "run" "courir"; card_of " " "x"])) as (_ & _ & H).
  destruct (H _ eq_refl) as (H1 & _ & _ & H4 & _). by split.
Defined.

(** X14: a card added by the editor is blank, so adding cards without
    filling them in changes nothing of what [handleSave] does; and removing
    the card just added (its id being new) gives back the list of cards as
    it was. *)
Theorem SectionEditor_blank_card_is_inert (uuid u : jsstring) (now : nat)
        (s : SectionEditor.State) :
  SectionEditor.handleSave uuid now (SectionEditor.addCard u s)
  = SectionEditor.handleSave uuid now s
  ∧ (u ∉ Types.id <$> SectionEditor.cards s →
     SectionEditor.removeCard u (SectionEditor.addCard u s) = s).
Proof.
  split.
  - unfold SectionEditor.handleSave, SectionEditor.addCard; simpl.
    rewrite filter_app. rewrite (filter_cons_False _ (mkCard u [] [])) by done.
    by rewrite filter_nil, app_nil_r.
  - intros Hu. unfold SectionEditor.removeCard, SectionEditor.addCard; simpl.
    destruct s as [sec t d cs]; simpl in *. f_equal.
    rewrite filter_app, filter_cons_False by (simpl; by intros H; apply H).
    rewrite filter_nil, app_nil_r. apply filter_all.
    intros c Hc Heq. apply Hu. apply list_elem_of_fmap. by exists c.
Qed.

Lemma SectionEditor_blank_card_is_inert_witness :
  SectionEditor.removeCard (js "n")
    (SectionEditor.addCard (js "n")
       (SectionEditor.mkState None (js "Verbs") [] [mkCard (js "c1") (js "run") (js "courir")]))
  = SectionEditor.mkState None (js "Verbs") [] [mkCard (js "c1") (js "run") (js "courir")].
Proof.
  apply (proj2 (SectionEditor_blank_card_is_inert [] (js "n") 0
                  (SectionEditor.mkState None (js "Verbs") []
                     [mkCard (js "c1") (js "run") (js "courir")]))).
  apply (bool_decide_unpack _). by vm_compute.
Defined.



(** ** The collection of sections *)

Lemma find_fmap_replace (sec : Section_) (l : list Section_) :
  List.find (λ p, bool_decide (Types.section_id p = Types.section_id sec)) l ≠ None →
  List.find (λ p, bool_decide (Types.section_id p = Types.section_id sec))
            ((λ p, if bool_decide (Types.section_id p = Types.section_id sec) then sec else p)
               <$> l)
  = Some sec.
Proof.
  induction l as [|x l IH]; simpl; [done|].
  case_bool_decide as Hx; simpl.
  - intros _. by rewrite bool_decide_eq_true_2.
  - intros Hl. rewrite bool_decide_eq_false_2 by done. by apply IH.
Qed.

Lemma find_app_None {A} (P : A → bool) (l k : list A) :
  List.find P l = None → List.find P (l ++ k) = List.find P k.
Proof.
  induction l as [|x l IH]; simpl; [done|]. destruct (P x); [done|apply IH].
Qed.

Lemma find_None_ids (id : jsstring) (l : list Section_) :
  List.find (λ p, bool_decide (Types.section_id p = id)) l = None
  ↔ id ∉ Types.section_id <$> l.
Proof.
  induction l as [|x l IH]; simpl.
  - split; [intros _ []%elem_of_nil|done].
  - rewrite not_elem_of_cons. case_bool_decide as Hx.
    + split; [done|]. by intros [? _].
    + rewrite IH. split; [by intros ?; split|by intros [_ ?]].
Qed.

(** X16: saving a section into the collection is an insert-or-replace keyed
    by the section id. Afterwards the lookup by that id returns the saved
    section; a new id appends the section at the end; a known id replaces
    the sections that carry it, in place, keeping the length of the list
    and every section with another id where it was; and saving the same
    section a second time changes nothing. *)
Theorem App_handleSave_upsert (sec : Section_) (s : App.State) :
  List.find (λ p, bool_decide (Types.section_id p = Types.section_id sec))
            (App.sections (App.handleSave sec s)) = Some sec
  ∧ (Types.section_id sec ∉ Types.section_id <$> App.sections s →
     App.sections (App.handleSave sec s) = App.sections s ++ [sec])
  ∧ (Types.section_id sec ∈ Types.section_id <$> App.sections s →
     length (App.sections (App.handleSave sec s)) = length (App.sections s)
     ∧ Types.section_id <$> App.sections (App.handleSave sec s)
       = Types.section_id <$> App.sections s)
  ∧ (∀ n p, App.sections s !! n = Some p →
            Types.section_id p ≠ Types.section_id sec →
            App.sections (App.handleSave sec s) !! n = Some p)
  ∧ App.handleSave sec (App.handleSave sec s) = App.handleSave sec s.
Proof.
  unfold App.handleSave; simpl.
  destruct (List.find _ (App.sections s)) as [p0|] eqn:Hfind.
  - assert (List.find (λ p, bool_decide (Types.section_id p = Types.section_id sec))
                      (App.sections s) ≠ None) as Hsome by (by rewrite Hfind).
    pose proof (find_fmap_replace sec _ Hsome) as Hrep.
    split; [done|]. split; [|split; [|split]].
    + intros Hnot%find_None_ids. congruence.
    + intros _. split; [by rewrite length_fmap|].
      rewrite <- list_fmap_compose. apply list_fmap_ext. intros n p _. simpl.
      by case_bool_decide.
    + intros n p Hn Hne. rewrite list_lookup_fmap, Hn. simpl.
      by rewrite bool_decide_eq_false_2.
    + rewrite Hrep. f_equal. rewrite <- list_fmap_compose.
      apply list_fmap_ext. intros n p _. simpl.
      destruct (bool_decide (Types.section_id p = Types.section_id sec)) eqn:Hp; simpl;
        [by rewrite bool_decide_eq_true_2|by rewrite Hp].
  - assert (List.find (λ p, bool_decide (Types.section_id p = Types.section_id sec))
                      (App.sections s ++ [sec]) = Some sec) as Happ.
    { rewrite find_app_None by done. simpl. by rewrite bool_decide_eq_true_2. }
    split; [done|]. split; [done|]. split; [|split].
    + intros Hin. by apply find_None_ids in Hfind.
    + intros n p Hn _. by apply lookup_app_l_Some.
    + rewrite Happ. f_equal. rewrite fmap_app. simpl.
      rewrite bool_decide_eq_true_2 by done. f_equal.
      rewrite <- (list_fmap_id (App.sections s)) at 2.
      apply list_fmap_ext. intros n p Hp. simpl.
      case_bool_decide as Heq; [|done]. exfalso.
      apply find_None_ids in Hfind. apply Hfind.
      apply list_elem_of_fmap. exists p. split; [done|]. by eapply list_elem_of_lookup_2.
Qed.

Lemma App_handleSave_upsert_witness :
  App.sections (App.handleSave (mkSection (js "s2") (js "Nouns") [] [card_of "a" "x"] 2)
                  (App.mkState [mkSection (js "s1") (js "Verbs") [] [card_of "b" "y"] 1]
                               ∅ None None App.edit None))
  = [mkSection (js "s1") (js "Verbs") [] [card_of "b" "y"] 1]
      ++ [mkSection (js "s2") (js "Nouns") [] [card_of "a" "x"] 2]
  ∧ length (App.sections
              (App.handleSave (mkSection (js "s1") (js "Verbs 2") [] [card_of "b" "y"] 1)
                 (App.mkState [mkSection (js "s1") (js "Verbs") [] [card_of "b" "y"] 1]
                              ∅ None None App.edit None)))
    = length [mkSection (js "s1") (js "Verbs") [] [card_of "b" "y"] 1].
Proof.
  split.
  - apply (proj1 (proj2 (App_handleSave_upsert
                           (mkSection (js "s2") (js "Nouns") [] [card_of "a" "x"] 2)
                           (App.mkState [mkSection (js "s1") (js "Verbs") [] [card_of "b" "y"] 1]
                                        ∅ None None App.edit None)))).
    apply (bool_decide_unpack _). by vm_compute.
  - apply (proj1 (proj2 (proj2 (App_handleSave_upsert
                           (mkSection (js "s1") (js "Verbs 2") [] [card_of "b" "y"] 1)
                           (App.mkState [mkSection (js "s1") (js "Verbs") [] [card_of "b" "y"] 1]
                                        ∅ None None App.edit None))))).
    apply (bool_decide_unpack _). by vm_compute.
Defined.


(** X17: confirming the deletion of a section removes from the collection
    exactly the sections with that id and keeps the others in their order;
    the lookup by that id then finds nothing, the pending deletion is
    cleared and a second confirmation does nothing. (The id is not empty
    and is not the word BULK, which stands for the bulk deletion.) *)
Theorem App_delete_section (id : jsstring) (s : App.State) :
  id ≠ [] → id ≠ App.BULK →
  App.sections (App.confirmDelete (App.handleDeleteClick id s))
  = filter (λ sec, Types.section_id sec ≠ id) (App.sections s)
  ∧ (∀ sec, sec ∈ App.sections (App.confirmDelete (App.handleDeleteClick id s))
            ↔ sec ∈ App.sections s ∧ Types.section_id sec ≠ id)
  ∧ App.sections (App.confirmDelete (App.handleDeleteClick id s)) `sublist_of` App.sections s
  ∧ List.find (λ sec, bool_decide (Types.section_id sec = id))
              (App.sections (App.confirmDelete (App.handleDeleteClick id s))) = None
  ∧ App.deleteId (App.confirmDelete (App.handleDeleteClick id s)) = None
  ∧ App.selectedIds (App.confirmDelete (App.handleDeleteClick id s)) = App.selectedIds s
  ∧ App.confirmDelete (App.confirmDelete (App.handleDeleteClick id s))
    = App.confirmDelete (App.handleDeleteClick id s).
Proof.
  intros Hne Hbulk. unfold App.confirmDelete, App.handleDeleteClick; simpl.
  destruct id as [|c id]; [done|]. simpl.
  rewrite bool_decide_eq_false_2 by done. simpl.
  split; [done|]. split; [|split; [|split]].
  - intros sec. rewrite list_elem_of_filter. tauto.
  - apply sublist_filter.
  - apply find_None_ids. intros (sec & Heq & Hin)%list_elem_of_fmap.
    apply list_elem_of_filter in Hin as [Hin _]. by apply Hin.
  - done.
Qed.

Lemma App_delete_section_witness :
  App.sections
    (App.confirmDelete
       (App.handleDeleteClick (js "s1")
          (App.mkState [mkSection (js "s1") (js "Verbs") [] [card_of "b" "y"] 1;
                        mkSection (js "s2") (js "Nouns") [] [card_of "a" "x"] 2]
                       ∅ None None App.dashboard None)))
  = filter (λ sec, Types.section_id sec ≠ js "s1")
           [mkSection (js "s1") (js "Verbs") [] [card_of "b" "y"] 1;
            mkSection (js "s2") (js "Nouns") [] [card_of "a" "x"] 2].
Proof.
  apply (App_delete_section (js "s1")
           (App.mkState [mkSection (js "s1") (js "Verbs") [] [card_of "b" "y"] 1;
                         mkSection (js "s2") (js "Nouns") [] [card_of "a" "x"] 2]
                        ∅ None None App.dashboard None)); by vm_compute.
Defined.

(** X18: the bulk deletion removes exactly the selected sections, keeps the
    others in their order and empties the selection; with nothing selected
    it removes nothing. *)
Theorem App_bulk_delete (s : App.State) :
  (∀ sec, sec ∈ App.sections (App.confirmDelete (App.handleDeleteClick App.BULK s))
          ↔ sec ∈ App.sections s ∧ Types.section_id sec ∉ App.selectedIds s)
  ∧ App.sections (App.confirmDelete (App.handleDeleteClick App.BULK s))
    `sublist_of` App.sections s
  ∧ App.selectedIds (App.confirmDelete (App.handleDeleteClick App.BULK s)) = ∅
  ∧ App.deleteId (App.confirmDelete (App.handleDeleteClick App.BULK s)) = None
  ∧ (App.selectedIds s = ∅ →
     App.sections (App.confirmDelete (App.handleDeleteClick App.BULK s)) = App.sections s).
Proof.
  unfold App.confirmDelete, App.handleDeleteClick; simpl.
  split; [|split; [|split; [|split]]]; try done.
  - intros sec. rewrite list_elem_of_filter. tauto.
  - apply sublist_filter.
  - intros ->. apply filter_all. intros sec _. apply not_elem_of_empty.
Qed.

(** X19: dragging a section over another position moves it there: the
    handler does not fail, the collection keeps its sections (it is a
    rearrangement of the old one), the dragged section sits at the new
    position, and dragging it back over its old position restores the old
    order. *)
Theorem App_drag_moves_section (from position : nat) (item : Section_) (s : App.State) :
  App.dragItem s = Some from →
  App.sections s !! from = Some item →
  position < length (App.sections s) →
  ∃ s', App.handleDragEnter position s = Some s'
        ∧ App.sections s' ≡ₚ App.sections s
        ∧ length (App.sections s') = length (App.sections s)
        ∧ App.sections s' !! position = Some item
        ∧ App.dragItem s' = Some position
        ∧ App.handleDragEnter from s' = Some s.
Proof.
  intros Hdrag Hitem Hpos. unfold App.handleDragEnter at 1. rewrite Hdrag.
  case_bool_decide as Heq.
  - subst position. exists s. repeat split; try done.
    unfold App.handleDragEnter. rewrite Hdrag. by rewrite bool_decide_eq_true_2.
  - rewrite Hitem. eexists. split; [reflexivity|]. simpl.
    set (removed := delete from (App.sections s)).
    assert (from < length (App.sections s)) as Hfrom by (by eapply lookup_lt_Some).
    assert (length removed = length (App.sections s) - 1) as Hlen.
    { unfold removed. rewrite length_delete; [done|by eexists]. }
    assert (length (take position removed) = position) as Htake.
    { rewrite length_take. lia. }
    assert (take position removed ++ item :: drop position removed ≡ₚ App.sections s) as Hperm.
    { rewrite <- Permutation_middle, take_drop. unfold removed.
      symmetry. by apply delete_Permutation. }
    split; [done|]. split; [by rewrite Hperm|]. split.
    { rewrite lookup_app_r by lia. by rewrite Htake, Nat.sub_diag. }
    split; [done|].
    unfold App.handleDragEnter; simpl. rewrite bool_decide_eq_false_2 by done.
    rewrite lookup_app_r by lia. rewrite Htake, Nat.sub_diag. simpl.
    pose proof (delete_middle (take position removed) (drop position removed) item) as Hdm.
    rewrite Htake in Hdm. rewrite Hdm, take_drop.
    unfold removed. rewrite delete_take_drop.
    rewrite take_app_length' by (rewrite length_take; lia).
    rewrite drop_app_length' by (rewrite length_take; lia).
    rewrite take_drop_middle by done.
    destruct s; simpl in *. by rewrite Hdrag.
Qed.

Lemma App_drag_moves_section_witness :
  ∃ s', App.handleDragEnter 1
          (App.mkState [mkSection (js "s1") (js "Verbs") [] [card_of "b" "y"] 1;
                        mkSection (js "s2") (js "Nouns") [] [card_of "a" "x"] 2]
                       ∅ None None App.dashboard (Some 0)) = Some s'
        ∧ App.sections s' !! 1 = Some (mkSection (js "s1") (js "Verbs") [] [card_of "b" "y"] 1).
Proof.
  destruct (App_drag_moves_section 0 1
              (mkSection (js "s1") (js "Verbs") [] [card_of "b" "y"] 1)
              (App.mkState [mkSection (js "s1") (js "Verbs") [] [card_of "b" "y"] 1;
                            mkSection (js "s2") (js "Nouns") [] [card_of "a" "x"] 2]
                           ∅ None None App.dashboard (Some 0))
              eq_refl eq_refl ltac:(simpl; lia)) as (s' & H1 & _ & _ & H4 & _).
  by exists s'.
Defined.

(** X20: ticking the checkbox of a section flips its membership in the
    selection and leaves every other id alone; ticking it twice restores
    the state. *)
Theorem App_toggleSelection_flips (id : jsstring) (s : App.State) :
  (id ∈ App.selectedIds (App.toggleSelection id s) ↔ id ∉ App.selectedIds s)
  ∧ (∀ k, k ≠ id →
          (k ∈ App.selectedIds (App.toggleSelection id s) ↔ k ∈ App.selectedIds s))
  ∧ App.toggleSelection id (App.toggleSelection id s) = s.
Proof.
  unfold App.toggleSelection; simpl.
  destruct (decide (id ∈ App.selectedIds s)) as [Hin|Hout].
  - rewrite (bool_decide_eq_true_2 _ Hin).
    rewrite bool_decide_eq_false_2 by set_solver.
    split; [set_solver|]. split; [set_solver|].
    destruct s as [secs sel a d m dr]; simpl in *. f_equal.
    apply set_eq. intros k. destruct (decide (k = id)); set_solver.
  - rewrite (bool_decide_eq_false_2 _ Hout).
    rewrite bool_decide_eq_true_2 by set_solver.
    split; [set_solver|]. split; [set_solver|].
    destruct s as [secs sel a d m dr]; simpl in *. f_equal.
    apply set_eq. intros k. destruct (decide (k = id)); set_solver.
Qed.

(** X21: when the section ids are pairwise distinct and only sections of
    the collection are selected, "Select all" selects every section unless
    every section is selected already, in which case it clears the
    selection; so a second press, right after one that selected every
    section, clears the selection. *)
Theorem App_selectAll_all_or_none (s : App.State) :
  NoDup (Types.section_id <$> App.sections s) →
  App.selectedIds s ⊆ list_to_set (Types.section_id <$> App.sections s) →
  (App.selectedIds s = list_to_set (Types.section_id <$> App.sections s) →
   App.selectedIds (App.selectAll s) = ∅)
  ∧ (App.selectedIds s ≠ list_to_set (Types.section_id <$> App.sections s) →
     App.selectedIds (App.selectAll s) = list_to_set (Types.section_id <$> App.sections s)
     ∧ App.selectedIds (App.selectAll (App.selectAll s)) = ∅).
Proof.
  intros Hnd Hsub.
  assert (size (list_to_set (Types.section_id <$> App.sections s) : gset jsstring)
          = length (App.sections s)) as Hsize.
  { rewrite size_list_to_set by done. apply length_fmap. }
  unfold App.selectAll; simpl. split.
  - intros ->. rewrite Hsize. by rewrite Nat.eqb_refl.
  - intros Hne.
    destruct (Nat.eqb_spec (size (App.selectedIds s)) (length (App.sections s))) as [Heq|Hneq].
    + exfalso. apply Hne.
      apply set_subseteq_size_eq; [done|]. rewrite Hsize. lia.
    + split; [done|]. rewrite Hsize. by rewrite Nat.eqb_refl.
Qed.

Lemma App_selectAll_all_or_none_witness :
  App.selectedIds
    (App.selectAll
       (App.mkState [mkSection (js "s1") (js "Verbs") [] [card_of "b" "y"] 1;
                     mkSection (js "s2") (js "Nouns") [] [card_of "a" "x"] 2]
                    (list_to_set [js "s1"; js "s2"]) None None App.dashboard None))
  = ∅.
Proof.
  apply (proj1 (App_selectAll_all_or_none
                  (App.mkState [mkSection (js "s1") (js "Verbs") [] [card_of "b" "y"] 1;
                                mkSection (js "s2") (js "Nouns") [] [card_of "a" "x"] 2]
                               (list_to_set [js "s1"; js "s2"]) None None App.dashboard None)
                  ltac:(apply (bool_decide_unpack _); by vm_compute)
                  ltac:(done))).
  reflexivity.
Defined.

(** X22: the file name of an exported section contains no whitespace,
    whatever the title: every whitespace code unit of the lower-cased title
    becomes an underscore, one for one, and [.json] is appended. *)
Theorem App_exportFilename_no_whitespace (toLowerCase : jsstring → jsstring) (sec : Section_) :
  (∀ c, c ∈ App.exportFilename toLowerCase sec → is_whitespace c = false)
  ∧ length (App.exportFilename toLowerCase sec)
    = length (toLowerCase (Types.title sec)) + 5
  ∧ drop (length (toLowerCase (Types.title sec))) (App.exportFilename toLowerCase sec)
    = js ".json".
Proof.
  unfold App.exportFilename. split; [|split].
  - intros c [(x & -> & Hx)%list_elem_of_fmap|Hc]%elem_of_app.
    + by destruct (is_whitespace x) eqn:Hw.
    + revert Hc. change (js ".json") with [46; 106; 115; 111; 110]%N.
      rewrite !elem_of_cons, elem_of_nil. intros [->|[->|[->|[->|[->|[]]]]]]; by vm_compute.
  - rewrite length_app, length_fmap. by vm_compute.
  - by rewrite drop_app_length' by (by rewrite length_fmap).
Qed.

(** ** The editor and the collection together *)

(** X23: saving from the editor into the collection. When the editor was
    opened on a section of the collection whose id is not empty, the saved
    section keeps that id, so it takes the place of the edited one: the
    collection keeps its length and the lookup by the id returns the new
    version. When the editor was opened for a new section and the fresh id
    is not in use, the saved section is appended with that id. In both
    cases the view returns to the dashboard with no active section. *)
Theorem editor_save_into_collection (uuid : jsstring) (now : nat)
        (ed : SectionEditor.State) (saved : Section_) (s : App.State) :
  SectionEditor.handleSave uuid now ed = SectionEditor.OnSave saved →
  (∀ sec, SectionEditor.section ed = Some sec → sec ∈ App.sections s →
          Types.section_id sec ≠ [] →
          Types.section_id saved = Types.section_id sec
          ∧ length (App.sections (App.handleSave saved s)) = length (App.sections s)
          ∧ List.find (λ p, bool_decide (Types.section_id p = Types.section_id sec))
                      (App.sections (App.handleSave saved s)) = Some saved
          ∧ (Types.createdAt sec ≠ 0 → Types.createdAt saved = Types.createdAt sec))
  ∧ (SectionEditor.section ed = None →
     uuid ∉ Types.section_id <$> App.sections s →
     Types.section_id saved = uuid
     ∧ Types.createdAt saved = now
     ∧ App.sections (App.handleSave saved s) = App.sections s ++ [saved])
  ∧ App.mode (App.handleSave saved s) = App.dashboard
  ∧ App.activeId (App.handleSave saved s) = None.
Proof.
  intros Hsave. unfold SectionEditor.handleSave in Hsave.
  destruct (negb _); [done|]. destruct (_ =? 0); [done|].
  injection Hsave as <-.
  split; [|split; [|done]].
  - intros sec Hsec Hin Hid. rewrite Hsec. simpl.
    apply truthy_nonempty in Hid. rewrite Hid.
    set (saved := mkSection (Types.section_id sec) _ _ _ _).
    destruct (App_handleSave_upsert saved s) as (Hfind & _ & Hrep & _).
    split; [done|]. split; [|split].
    + apply Hrep. simpl. apply list_elem_of_fmap. by exists sec.
    + exact Hfind.
    + intros Hc. by rewrite (proj2 (Nat.eqb_neq _ _) Hc).
  - intros Hsec Hfresh. rewrite Hsec. simpl. split; [done|]. split; [done|].
    set (saved := mkSection uuid _ _ _ _).
    by apply (proj1 (proj2 (App_handleSave_upsert saved s))).
Qed.

Lemma editor_save_into_collection_witness :
  Types.section_id (mkSection (js "n1") (js "Verbs") [] [card_of "run" "courir"] 7) = js "n1"
  ∧ Types.createdAt (mkSection (js "n1") (js "Verbs") [] [card_of "run" "courir"] 7) = 7
  ∧ App.sections
      (App.handleSave (mkSection (js "n1") (js "Verbs") [] [card_of "run" "courir"] 7)
         (App.mkState [mkSection (js "s1") (js "Nouns") [] [card_of "b" "y"] 1]
                      ∅ None None App.edit None))
    = [mkSection (js "s1") (js "Nouns") [] [card_of "b" "y"] 1]
        ++ [mkSection (js "n1") (js "Verbs") [] [card_of "run" "courir"] 7].
Proof.
  apply (proj1 (proj2 (editor_save_into_collection (js "n1") 7
                         (SectionEditor.mkState None (js "Verbs") []
                            [card_of "run" "courir"; card_of " " "x"])
                         (mkSection (js "n1") (js "Verbs") [] [card_of "run" "courir"] 7)
                         (App.mkState [mkSection (js "s1") (js "Nouns") [] [card_of "b" "y"] 1]
                                      ∅ None None App.edit None)
                         eq_refl))).
  - reflexivity.
  - apply (bool_decide_unpack _). by vm_compute.
Defined.

(** ** The listening exercise *)

(** X24: for a question with several correct answers, none of them listed
    twice, the listening exercise accepts a stored list of answers exactly
    when it is a rearrangement of the correct list: the order in which the
    boxes were ticked does not matter, and a missing, an extra or a
    repeated answer is rejected. A stored text is never accepted for such
    a question. *)
Theorem ListeningTest_multi_choice (toLowerCase : jsstring → jsstring)
        (userAnswers : gmap jsstring ListeningTest.Answer)
        (questionId : jsstring) (correct : list jsstring) :
  NoDup correct →
  (∀ user, userAnswers !! questionId = Some (ListeningTest.AStrings user) →
           (ListeningTest.checkAnswer toLowerCase userAnswers questionId
              (ListeningTest.AStrings correct) = true
            ↔ user ≡ₚ correct))
  ∧ (∀ text, userAnswers !! questionId = Some (ListeningTest.AString text) →
             ListeningTest.checkAnswer toLowerCase userAnswers questionId
               (ListeningTest.AStrings correct) = false)
  ∧ (userAnswers !! questionId = None →
     ListeningTest.checkAnswer toLowerCase userAnswers questionId
       (ListeningTest.AStrings correct) = false).
Proof.
  intros Hnd. unfold ListeningTest.checkAnswer. split; [|split].
  - intros user ->. simpl. rewrite andb_true_iff, Nat.eqb_eq, forallb_forall. split.
    + intros [Hlen Hall]. symmetry. apply submseteq_length_Permutation; [|lia].
      apply NoDup_submseteq; [done|]. intros x Hx.
      apply list_elem_of_In, Hall in Hx. by apply bool_decide_eq_true in Hx.
    + intros Hperm. split; [by rewrite Hperm|].
      intros x Hx%list_elem_of_In. apply bool_decide_eq_true. by rewrite Hperm.
  - intros text ->. simpl. by destruct (negb (truthy text)).
  - by intros ->.
Qed.

Lemma ListeningTest_multi_choice_witness :
  ListeningTest.checkAnswer asciiLowerCase
    (<[js "21" := ListeningTest.AStrings [js "C"; js "A"]]> ∅) (js "21")
    (ListeningTest.AStrings [js "A"; js "C"]) = true.
Proof.
  apply (proj1 (ListeningTest_multi_choice asciiLowerCase
                  (<[js "21" := ListeningTest.AStrings [js "C"; js "A"]]> ∅) (js "21")
                  [js "A"; js "C"]
                  ltac:(apply (bool_decide_unpack _); by vm_compute))
               [js "C"; js "A"] ltac:(by vm_compute)).
  apply perm_swap.
Defined.

(** ** Stored answers and question ids *)

Lemma size_list_to_set_length (l : list jsstring) :
  size (list_to_set l : gset jsstring) ≤ length l.
Proof.
  induction l as [|x l IH].
  - rewrite list_to_set_nil, size_empty. simpl; lia.
  - rewrite list_to_set_cons, size_union_alt, size_singleton. simpl.
    pose proof (subseteq_size (list_to_set l ∖ {[x]}) (list_to_set l : gset jsstring)
                  ltac:(apply subseteq_difference_l; reflexivity)).
    lia.
Qed.

Lemma QuizMode_dispatch_offered (qs : list QuizMode.Question) (e : QuizMode.Event)
      (s : QuizMode.State) (ids : gset jsstring) :
  QuizMode_offered qs e →
  ids = list_to_set (QuizMode.id <$> qs) →
  dom (QuizMode.userAnswers s) ⊆ ids →
  dom (QuizMode.userAnswers (QuizMode.dispatch e s)) ⊆ ids.
Proof.
  intros Hoff -> Hdom.
  destruct (QuizMode_dispatch_answers e s) as [->|(k & o & Heq)]; [done|].
  destruct e as [k' o'|]; simpl in *.
  - destruct Hoff as (q & Hq & -> & _).
    unfold QuizMode.handleSelect in *. destruct (QuizMode.isDone s); [done|]. simpl.
    rewrite dom_insert_L.
    assert (QuizMode.id q ∈ (list_to_set (QuizMode.id <$> qs) : gset jsstring)).
    { apply elem_of_list_to_set, list_elem_of_fmap. by exists q. }
    set_solver.
  - done.
Qed.

(** X25: in a quiz session driven through the rendered buttons, the keys of
    the stored answers are ids of questions of the session, and the
    "completed" counter, the number of keys, never exceeds the number of
    questions. *)
Theorem QuizMode_answers_within_questions (qs : list QuizMode.Question)
        (es : list QuizMode.Event) :
  Forall (QuizMode_offered qs) es →
  dom (QuizMode.userAnswers (QuizMode_run es (QuizMode.mkState qs ∅ false)))
  ⊆ list_to_set (QuizMode.id <$> qs)
  ∧ size (QuizMode.userAnswers (QuizMode_run es (QuizMode.mkState qs ∅ false))) ≤ length qs.
Proof.
  intros Hes.
  assert (∀ s, dom (QuizMode.userAnswers s) ⊆ (list_to_set (QuizMode.id <$> qs) : gset jsstring) →
               dom (QuizMode.userAnswers (QuizMode_run es s))
               ⊆ (list_to_set (QuizMode.id <$> qs) : gset jsstring)) as Hrun.
  { induction Hes as [|e es He Hes IH]; intros s Hs; [done|]. simpl.
    apply IH. by eapply QuizMode_dispatch_offered. }
  specialize (Hrun (QuizMode.mkState qs ∅ false)).
  assert (dom (QuizMode.userAnswers (QuizMode_run es (QuizMode.mkState qs ∅ false)))
          ⊆ (list_to_set (QuizMode.id <$> qs) : gset jsstring)) as Hdom.
  { apply Hrun. simpl. rewrite dom_empty_L. set_solver. }
  split; [done|].
  rewrite <- size_dom. etrans; [by apply subseteq_size|].
  etrans; [apply size_list_to_set_length|]. by rewrite length_fmap.
Qed.

Lemma QuizMode_answers_within_questions_witness :
  size (QuizMode.userAnswers
          (QuizMode_run [QuizMode.Select (js "q-0-") (js "x"); QuizMode.EndTest]
             (QuizMode.mkState [QuizMode.mkQuestion (js "q-0-") (card_of "a" "x")
                                                    [js "y"; js "x"; js "z"; js "w"]] ∅ false)))
  ≤ length [QuizMode.mkQuestion (js "q-0-") (card_of "a" "x") [js "y"; js "x"; js "z"; js "w"]].
Proof.
  apply (proj2 (QuizMode_answers_within_questions
                  [QuizMode.mkQuestion (js "q-0-") (card_of "a" "x")
                                       [js "y"; js "x"; js "z"; js "w"]]
                  [QuizMode.Select (js "q-0-") (js "x"); QuizMode.EndTest]
                  ltac:(repeat constructor;
                        exists (QuizMode.mkQuestion (js "q-0-") (card_of "a" "x")
                                                    [js "y"; js "x"; js "z"; js "w"]);
                        split; [by left|split; [done|simpl; set_solver]]))).
Defined.

Lemma TestMode_dispatch_offered (qs : list TestMode.Question) (e : TestMode.Event)
      (s : TestMode.State) :
  TestMode_offered qs e →
  dom (TestMode.userAnswers s) ⊆ (list_to_set (TestMode.id <$> qs) : gset jsstring) →
  dom (TestMode.userAnswers (TestMode.dispatch e s))
  ⊆ (list_to_set (TestMode.id <$> qs) : gset jsstring).
Proof.
  intros Hoff Hdom.
  assert (∀ q, q ∈ qs → TestMode.id q ∈ (list_to_set (TestMode.id <$> qs) : gset jsstring))
    as Hid.
  { intros q Hq. apply elem_of_list_to_set, list_elem_of_fmap. by exists q. }
  destruct e as [k o|k v|]; simpl in *; [| |done].
  - destruct Hoff as (q & opts & Hq & -> & _).
    unfold TestMode.handleSelectMC. destruct (TestMode.isDone s); [done|]. simpl.
    rewrite dom_insert_L. specialize (Hid q Hq). set_solver.
  - destruct Hoff as (q & Hq & -> & _).
    unfold TestMode.handleResponseInput. destruct (TestMode.isDone s); [done|]. simpl.
    rewrite dom_insert_L. specialize (Hid q Hq). set_solver.
Qed.

(** X26: in a mixed-test session driven through the rendered option buttons
    and input fields, the keys of the stored answers are ids of questions
    of the session, and the "completed" counter, the number of keys, never
    exceeds the number of questions. *)
Theorem TestMode_answers_within_questions (qs : list TestMode.Question)
        (es : list TestMode.Event) :
  Forall (TestMode_offered qs) es →
  dom (TestMode.userAnswers (TestMode_run es (TestMode.mkState qs ∅ false)))
  ⊆ list_to_set (TestMode.id <$> qs)
  ∧ size (TestMode.userAnswers (TestMode_run es (TestMode.mkState qs ∅ false))) ≤ length qs.
Proof.
  intros Hes.
  assert (∀ s, dom (TestMode.userAnswers s) ⊆ (list_to_set (TestMode.id <$> qs) : gset jsstring) →
               dom (TestMode.userAnswers (TestMode_run es s))
               ⊆ (list_to_set (TestMode.id <$> qs) : gset jsstring)) as Hrun.
  { induction Hes as [|e es He Hes IH]; intros s Hs; [done|]. simpl.
    apply IH. by apply TestMode_dispatch_offered. }
  assert (dom (TestMode.userAnswers (TestMode_run es (TestMode.mkState qs ∅ false)))
          ⊆ (list_to_set (TestMode.id <$> qs) : gset jsstring)) as Hdom.
  { apply Hrun. simpl. rewrite dom_empty_L. apply empty_subseteq. }
  split; [done|].
  rewrite <- size_dom. etrans; [by apply subseteq_size|].
  etrans; [apply size_list_to_set_length|]. by rewrite length_fmap.
Qed.

Lemma TestMode_answers_within_questions_witness :
  size (TestMode.userAnswers
          (TestMode_run [TestMode.ResponseInput (js "q-0-") (js "run"); TestMode.EndTest]
             (TestMode.mkState [TestMode.mkQuestion (js "q-0-") TestMode.response
                                  (card_of "run" "m") None (js "run")] ∅ false)))
  ≤ length [TestMode.mkQuestion (js "q-0-") TestMode.response (card_of "run" "m") None (js "run")].
Proof.
  apply (proj2 (TestMode_answers_within_questions
                  [TestMode.mkQuestion (js "q-0-") TestMode.response
                                       (card_of "run" "m") None (js "run")]
                  [TestMode.ResponseInput (js "q-0-") (js "run"); TestMode.EndTest]
                  ltac:(repeat constructor;
                        exists (TestMode.mkQuestion (js "q-0-") TestMode.response
                                                    (card_of "run" "m") None (js "run"));
                        split; [by left|by split]))).
Defined.
